(** * Jacobi relaxation for the 2D Laplace equation (laplace.ipynb)

    A shallow embedding of the notebook's solver: the function
    [finite_difference] (one sweep of the five-point stencil) and the
    iteration loop with its convergence test.  NumPy arrays are mutable
    objects, so they live in a store and are named by references; element
    arithmetic is the array's dtype, given here as an interface with the
    notebook's float64 as the instance the code runs at. *)

From Stdlib Require Import ZArith QArith Qabs Lia Lqa Bool.
From Stdlib Require Import Floats.
From stdpp Require Import base list.

Set Default Proof Using "Type".

(** ** Element types (NumPy dtypes) *)

(** The operations the notebook applies to array elements.  [of_int] is the
    conversion NumPy applies to the Python integer [4] in [... / 4]. *)
Class Dtype (T : Type) := {
  add : T -> T -> T;
  subtract : T -> T -> T;
  true_divide : T -> T -> T;
  absolute : T -> T;
  less : T -> T -> bool;
  greater_equal : T -> T -> bool;
  isnan : T -> bool;
  of_int : Z -> T
}.

(** IEEE 754 binary64, the dtype of [np.zeros((N, N))]. *)
#[export] Instance float64 : Dtype float := {
  add := PrimFloat.add;
  subtract := PrimFloat.sub;
  true_divide := PrimFloat.div;
  absolute := PrimFloat.abs;
  less := PrimFloat.ltb;
  greater_equal x y := PrimFloat.leb y x;
  isnan := PrimFloat.is_nan;
  of_int n := SF2Prim (binary_normalize prec emax n 0 false)
}.

(** Exact rational elements (an object array of fractions): the arithmetic
    the update rule has when nothing is rounded. *)
#[export] Instance rational : Dtype Q := {
  add := Qplus;
  subtract := Qminus;
  true_divide := Qdiv;
  absolute := Qabs;
  less x y := negb (Qle_bool y x);
  greater_equal x y := Qle_bool y x;
  isnan _ := false;
  of_int := inject_Z
}.

(** ** Arrays and the store *)

Inductive exn := IndexError | ValueError | NameError.

Inductive result (A : Type) :=
  | Ok (a : A)
  | Raise (e : exn).
Arguments Ok {A} a.
Arguments Raise {A} e.

(** A two-dimensional [ndarray]: its [shape] and its entries by rows. *)
Record ndarray (T : Type) := {
  shape : nat * nat;
  rows : list (list T)
}.
Arguments shape {T} _.
Arguments rows {T} _.
Arguments Build_ndarray {T} _ _.

(** References are indices into the store, which holds every array ever
    allocated. *)
Abbreviation loc := nat (only parsing).
Abbreviation heap T := (list (ndarray T)) (only parsing).

Section Solver.
Context {T : Type} `{Dtype T}.

(** Computations that read and write the store and may raise. *)
Definition M (A : Type) := heap T -> result (A * heap T).

Definition ret {A} (a : A) : M A := fun h => Ok (a, h).
Definition raise {A} (e : exn) : M A := fun _ => Raise e.
Definition bind {A B} (m : M A) (k : A -> M B) : M B :=
  fun h => match m h with
           | Ok (a, h') => k a h'
           | Raise e => Raise e
           end.
Definition lift {A} (r : result A) : M A :=
  fun h => match r with Ok a => Ok (a, h) | Raise e => Raise e end.

Notation "x <- m ;; k" := (bind m (fun x => k))
  (at level 100, m at next level, right associativity).
Notation "m ;;; k" := (bind m (fun _ => k))
  (at level 100, right associativity).

(** [for x in xs: body(x)] without [break]. *)
Fixpoint for_each {A} (xs : list A) (body : A -> M unit) : M unit :=
  match xs with
  | [] => ret tt
  | x :: xs' => body x ;;; for_each xs' body
  end.

(** Python's [range(start, stop)]: empty when [stop <= start]. *)
Definition range (start stop : nat) : list nat := seq start (stop - start).

(** Dereference: a reference not in the store is an unbound name. *)
Definition load (l : loc) : M (ndarray T) :=
  fun h => match h !! l with
           | Some a => Ok (a, h)
           | None => Raise NameError
           end.

(** [U.shape] *)
Definition get_shape (l : loc) : M (nat * nat) :=
  a <- load l ;; ret (shape a).

(** [U.copy()]: a fresh array with the same contents. *)
Definition copy (l : loc) : M loc :=
  a <- load l ;; fun h => Ok (length h, h ++ [a]).

Definition entry (a : ndarray T) (i j : nat) : option T :=
  row ← rows a !! i; row !! j.

(** A rectangular array: [shape] rows, each of [shape] columns. *)
Definition is_rect (a : ndarray T) : bool :=
  (length (rows a) =? fst (shape a))
  && forallb (fun row => length row =? snd (shape a)) (rows a).

Definition set_entry (a : ndarray T) (i j : nat) (v : T) : ndarray T :=
  match rows a !! i with
  | Some row => Build_ndarray (shape a) (<[i := <[j := v]> row]> (rows a))
  | None => a
  end.

(** [U[i, j]] with non-negative indices; out of range raises. *)
Definition getitem (l : loc) (i j : nat) : M T :=
  a <- load l ;;
  match entry a i j with
  | Some v => ret v
  | None => raise IndexError
  end.

(** [U[i, j] = v]: in-place write to the array behind the reference. *)
Definition setitem (l : loc) (i j : nat) (v : T) : M unit :=
  a <- load l ;;
  match entry a i j with
  | Some _ => fun h => Ok (tt, <[l := set_entry a i j v]> h)
  | None => raise IndexError
  end.

(** The notebook's initial field: [np.zeros((N, N))] with [value] stamped on
    the first and last row and column ([N >= 1]). *)
Definition initial_field (N : nat) (value : T) : ndarray T :=
  Build_ndarray (N, N)
    (map (fun i =>
       map (fun j =>
         if (i =? 0) || (i =? N - 1) || (j =? 0) || (j =? N - 1)
         then value else of_int 0) (seq 0 N)) (seq 0 N)).

(** ** The sweep *)

(** [def finite_difference(U, dx)]: the argument [dx] is not used. *)
Definition finite_difference (U : loc) (dx : T) : M loc :=
  sh <- get_shape U ;;
  let (Nx, Ny) := sh in
  U_new <- copy U ;;
  for_each (range 1 (Nx - 1)) (fun i =>
    for_each (range 1 (Ny - 1)) (fun j =>
      a <- getitem U (i + 1) j ;;
      b <- getitem U (i - 1) j ;;
      c <- getitem U i (j + 1) ;;
      d <- getitem U i (j - 1) ;;
      setitem U_new i j
        (true_divide (add (add (add a b) c) d) (of_int 4)))) ;;;
  ret U_new.

(** ** The residual: [np.max(np.abs(U - U_new))] *)

(** Elementwise binary operation on arrays of one shape.  The notebook only
    ever subtracts arrays of equal shape; other shapes are rejected here
    (NumPy would try to broadcast them). *)
Definition np_subtract (a b : ndarray T) : result (ndarray T) :=
  if decide (shape a = shape b) then
    Ok (Build_ndarray (shape a)
          (zip_with (zip_with subtract) (rows a) (rows b)))
  else Raise ValueError.

Definition np_abs (a : ndarray T) : ndarray T :=
  Build_ndarray (shape a) (map (map absolute) (rows a)).

(** NumPy's [maximum]: the larger argument, a NaN if there is one. *)
Definition maximum (x y : T) : T :=
  if greater_equal x y || isnan x then x else y.

(** [np.max]: reduction of all entries in row-major order; a zero-size array
    has no maximum. *)
Definition np_max (a : ndarray T) : result T :=
  match concat (rows a) with
  | [] => Raise ValueError
  | x :: xs => Ok (foldl maximum x xs)
  end.



Definition residual (U U_new : loc) : M T :=
  a <- load U ;;
  b <- load U_new ;;
  d <- lift (np_subtract a b) ;;
  lift (np_max (np_abs d)).

(** ** The iteration loop *)

(** The notebook's variables after the loop cell, and what it printed: the
    iteration numbers of the 'Converged at iteration' messages. *)
Record env := {
  U : loc;
  U_new : option loc;
  i : option nat;
  stdout : list nat
}.

(** [for i in range(max_iter): ...] with its [break]. *)
Fixpoint iterate (its : list nat) (dx tol : T) (e : env) : M env :=
  match its with
  | [] => ret e
  | it :: its' =>
      new <- finite_difference (U e) dx ;;
      r <- residual (U e) new ;;
      if less r tol then
        ret {| U := U e; U_new := Some new; i := Some it;
               stdout := stdout e ++ [it] |}
      else
        iterate its' dx tol
          {| U := new; U_new := Some new; i := Some it;
             stdout := stdout e |}
  end.

Definition solve (U0 : loc) (dx : T) (max_iter : Z) (tol : T) : M env :=
  iterate (range 0 (Z.to_nat max_iter)) dx tol
    {| U := U0; U_new := None; i := None; stdout := [] |}.

(** ** Reading the loops as functions on array values *)

(** The value the update rule assigns at [(i, j)], reading the array [a]. *)
Definition stencil (a : ndarray T) (i j : nat) : option T :=
  x1 ← entry a (i + 1) j;
  x2 ← entry a (i - 1) j;
  x3 ← entry a i (j + 1);
  x4 ← entry a i (j - 1);
  Some (true_divide (add (add (add x1 x2) x3) x4) (of_int 4)).

(** The writes of the inner loop, of the outer loop, and of a whole sweep,
    applied to the value [b] of the copy while reading [a]. *)
Definition sweep_row (a : ndarray T) (i : nat) (js : list nat)
    (b : ndarray T) : ndarray T :=
  foldl (fun b j => match stencil a i j with
                    | Some v => set_entry b i j v
                    | None => b
                    end) b js.

Definition sweep_rows (a : ndarray T) (ixs js : list nat)
    (b : ndarray T) : ndarray T :=
  foldl (fun b i => sweep_row a i js b) b ixs.

Definition jacobi (a : ndarray T) : ndarray T :=
  sweep_rows a (range 1 (fst (shape a) - 1)) (range 1 (snd (shape a) - 1)) a.

(** The array value after [k] sweeps. *)
Definition jacobi_n (k : nat) (a : ndarray T) : ndarray T :=
  Nat.iter k jacobi a.

(** The residual of two array values. *)
Definition max_abs_diff (a b : ndarray T) : result T :=
  match np_subtract a b with
  | Ok d => np_max (np_abs d)
  | Raise e => Raise e
  end.

(** An array with at least one entry. *)
Definition nonempty (a : ndarray T) : bool :=
  (0 <? fst (shape a)) && (0 <? snd (shape a)).

(** Index sets of an [Nx] by [Ny] grid. *)
Definition interior (sh : nat * nat) (i j : nat) : Prop :=
  1 <= i /\ i + 2 <= fst sh /\ 1 <= j /\ j + 2 <= snd sh.

Definition on_boundary (sh : nat * nat) (i j : nat) : Prop :=
  i < fst sh /\ j < snd sh /\
  (i = 0 \/ i = fst sh - 1 \/ j = 0 \/ j = snd sh - 1).

(** [n] sweeps in a row, each adopting the new field: [U = U_new]. *)
Fixpoint sweeps (n : nat) (U : loc) (dx : T) : M loc :=
  match n with
  | O => ret U
  | S n' => new <- finite_difference U dx ;; sweeps n' new dx
  end.

(** The number of sweeps the loop performed: one per iteration entered. *)
Definition iterations_used (e : env) : nat :=
  match i e with
  | Some it => S it
  | None => 0
  end.

(** Whether the loop left through its [break]. *)
Definition converged (e : env) : bool :=
  match stdout e with
  | [] => false
  | _ => true
  end.

(** ** The setup cell: building the initial field *)

(** A Python index [k] on an axis of [n] entries: a negative index counts
    from the end, and anything outside [-n, n) is out of bounds. *)
Definition norm_index (n : nat) (k : Z) : option nat :=
  if ((0 <=? k) && (k <? Z.of_nat n))%Z then Some (Z.to_nat k)
  else if ((- Z.of_nat n <=? k) && (k <? 0))%Z
       then Some (Z.to_nat (k + Z.of_nat n))
       else None.

(** [np.zeros((Nx, Ny))] *)
Definition np_zeros (Nx Ny : nat) : M loc :=
  fun h => Ok (length h,
               h ++ [Build_ndarray (Nx, Ny)
                       (replicate Nx (replicate Ny (of_int 0)))]).

(** [U[k, :] = v]: every entry of row [k] is overwritten. *)
Definition setitem_row (l : loc) (k : Z) (v : T) : M unit :=
  a <- load l ;;
  match norm_index (fst (shape a)) k with
  | Some i =>
      fun h => Ok (tt, <[l := Build_ndarray (shape a)
                                (alter (fmap (fun _ => v)) i (rows a))]> h)
  | None => raise IndexError
  end.

(** [U[:, k] = v]: entry [k] of every row is overwritten. *)
Definition setitem_col (l : loc) (k : Z) (v : T) : M unit :=
  a <- load l ;;
  match norm_index (snd (shape a)) k with
  | Some j =>
      fun h => Ok (tt, <[l := Build_ndarray (shape a)
                                (fmap (fun row => <[j := v]> row) (rows a))]> h)
  | None => raise IndexError
  end.

(** The statements of the setup cell that build the field:
    [U = np.zeros((N, N)); U[0, :] = value; U[-1, :] = value;
     U[:, 0] = value; U[:, -1] = value]. *)
Definition initialize (N : nat) (value : T) : M loc :=
  U <- np_zeros N N ;;
  setitem_row U 0 value ;;;
  setitem_row U (-1) value ;;;
  setitem_col U 0 value ;;;
  setitem_col U (-1) value ;;;
  ret U.

(** The four corners of the grid. *)
Definition is_corner (sh : nat * nat) (i j : nat) : Prop :=
  (i = 0 \/ i = fst sh - 1) /\ (j = 0 \/ j = snd sh - 1).

(** Two arrays that agree everywhere except, possibly, at the corners. *)
Definition agree_off_corners (a b : ndarray T) : Prop :=
  shape a = shape b /\
  forall i j, ~ is_corner (shape a) i j -> entry a i j = entry b i j.

End Solver.

Arguments M T A : clear implicits.
Arguments jacobi_n : simpl never.

Notation "x <- m ;; k" := (bind m (fun x => k))
  (at level 100, m at next level, right associativity).
Notation "m ;;; k" := (bind m (fun _ => k))
  (at level 100, right associativity).

#[global] Instance interior_dec sh i j : Decision (interior sh i j).
Proof. unfold interior. apply _. Defined.

(** * Properties *)

Section ArrayFacts.
Context {T : Type} `{Dtype T}.
Implicit Types (a b : ndarray T) (h : heap T) (l : loc).

Lemma is_rect_spec a :
  is_rect a = true <->
  length (rows a) = fst (shape a) /\
  Forall (fun row => length row = snd (shape a)) (rows a).
Proof.
  unfold is_rect. rewrite andb_true_iff, Nat.eqb_eq, forallb_forall.
  rewrite Forall_forall. split; intros [H1 H2]; split; auto.
  - intros x Hx. apply Nat.eqb_eq, H2. by apply list_elem_of_In.
  - intros x Hx. apply Nat.eqb_eq, H2. by apply list_elem_of_In.
Qed.

Lemma entry_is_Some a i j :
  is_rect a = true ->
  is_Some (entry a i j) <-> i < fst (shape a) /\ j < snd (shape a).
Proof.
  intros [Hl Hr]%is_rect_spec. unfold entry. split.
  - intros [v Hv]. destruct (rows a !! i) as [row|] eqn:Hi; [|done].
    simpl in Hv. split.
    + rewrite <- Hl. by eapply lookup_lt_Some.
    + rewrite Forall_lookup in Hr. rewrite <- (Hr _ _ Hi).
      by eapply lookup_lt_Some.
  - intros [Hi Hj]. rewrite <- Hl in Hi.
    destruct (lookup_lt_is_Some_2 _ _ Hi) as [row Hrow].
    rewrite Hrow. simpl. apply lookup_lt_is_Some_2.
    rewrite Forall_lookup in Hr. by rewrite (Hr _ _ Hrow).
Qed.

Lemma shape_set_entry a i j v : shape (set_entry a i j v) = shape a.
Proof. unfold set_entry. by destruct (rows a !! i). Qed.

Lemma is_rect_set_entry a i j v :
  is_rect a = true -> is_rect (set_entry a i j v) = true.
Proof.
  rewrite !is_rect_spec. intros [Hl Hr]. unfold set_entry.
  destruct (rows a !! i) as [row|] eqn:Hi; [|done]. simpl. split.
  - by rewrite length_insert.
  - apply Forall_insert; [done|]. rewrite length_insert.
    rewrite Forall_lookup in Hr. eauto.
Qed.

Lemma entry_set_entry a i j v i' j' :
  entry (set_entry a i j v) i' j' =
  if decide (i' = i /\ j' = j /\ is_Some (entry a i j))
  then Some v else entry a i' j'.
Proof.
  unfold set_entry, entry.
  destruct (rows a !! i) as [row|] eqn:Hi; simpl.
  - destruct (decide (i' = i)) as [->|Hne].
    + rewrite list_lookup_insert_eq by (by eapply lookup_lt_Some).
      rewrite Hi. simpl. destruct (decide (j' = j)) as [->|Hnj].
      * destruct (row !! j) as [x|] eqn:Hj.
        -- rewrite list_lookup_insert_eq by (by eapply lookup_lt_Some).
           rewrite decide_True; [done|]. by eauto.
        -- rewrite list_insert_ge by (by apply lookup_ge_None).
           rewrite Hj. rewrite decide_False; [done|].
           intros (_ & _ & [? ?]); done.
      * rewrite list_lookup_insert_ne by done.
        rewrite decide_False; [done|]. by intros (_ & ? & _).
    + rewrite list_lookup_insert_ne by done.
      rewrite decide_False; [done|]. by intros (? & _).
  - rewrite decide_False; [done|]. intros (_ & _ & [? ?]); done.
Qed.

End ArrayFacts.

Section SweepFacts.
Context {T : Type} `{Dtype T}.
Implicit Types (a b : ndarray T) (h : heap T) (l : loc).

Lemma stencil_is_Some a i j :
  is_rect a = true -> interior (shape a) i j -> is_Some (stencil a i j).
Proof.
  intros Ha (Hi1 & Hi2 & Hj1 & Hj2). unfold stencil.
  destruct (proj2 (entry_is_Some a (i + 1) j Ha)) as [x1 ->]; [lia|].
  destruct (proj2 (entry_is_Some a (i - 1) j Ha)) as [x2 ->]; [lia|].
  destruct (proj2 (entry_is_Some a i (j + 1) Ha)) as [x3 ->]; [lia|].
  destruct (proj2 (entry_is_Some a i (j - 1) Ha)) as [x4 ->]; [lia|].
  simpl. eauto.
Qed.

Lemma sweep_row_cons a i j js b :
  sweep_row a i (j :: js) b =
  sweep_row a i js (match stencil a i j with
                    | Some v => set_entry b i j v
                    | None => b
                    end).
Proof. reflexivity. Qed.

Lemma sweep_row_inv a i js b :
  is_rect b = true -> shape b = shape a ->
  is_rect (sweep_row a i js b) = true /\ shape (sweep_row a i js b) = shape a.
Proof.
  revert b. induction js as [|j js IH]; intros b Hb Hs; [done|].
  rewrite sweep_row_cons. apply IH.
  - destruct (stencil a i j); [by apply is_rect_set_entry|done].
  - destruct (stencil a i j); [by rewrite shape_set_entry|done].
Qed.

Lemma sweep_rows_inv a ixs js b :
  is_rect b = true -> shape b = shape a ->
  is_rect (sweep_rows a ixs js b) = true /\
  shape (sweep_rows a ixs js b) = shape a.
Proof.
  revert b. induction ixs as [|i ixs IH]; intros b Hb Hs; [done|].
  simpl. destruct (sweep_row_inv a i js b Hb Hs). by apply IH.
Qed.

Lemma entry_sweep_row a i js b i' j' :
  is_rect a = true -> is_rect b = true -> shape b = shape a ->
  (forall j, j ∈ js -> interior (shape a) i j) ->
  entry (sweep_row a i js b) i' j' =
  if decide (i' = i /\ j' ∈ js) then stencil a i j' else entry b i' j'.
Proof.
  intros Ha. revert b. induction js as [|j js IH]; intros b Hb Hs Hjs.
  - change (sweep_row a i [] b) with b. rewrite decide_False; [done|].
    intros [_ Hin]. by inversion Hin.
  - rewrite sweep_row_cons.
    assert (Hint : interior (shape a) i j) by (apply Hjs; left).
    destruct (stencil_is_Some a i j Ha Hint) as [v Hv]. rewrite Hv.
    rewrite IH.
    + rewrite entry_set_entry.
      assert (Hbe : is_Some (entry b i j)).
      { apply entry_is_Some; [done|]. rewrite Hs.
        destruct Hint as (? & ? & ? & ?). lia. }
      destruct (decide (i' = i /\ j' ∈ js)) as [[-> Hin]|Hn].
      * rewrite decide_True; [done|]. split; [done|by right].
      * destruct (decide (i' = i /\ j' = j /\ _)) as [(-> & -> & _)|Hn2].
        -- rewrite decide_True; [done|]. split; [done|left].
        -- rewrite decide_False; [done|]. intros [-> Hin].
           apply elem_of_cons in Hin as [->|Hin]; [by apply Hn2|by apply Hn].
    + by apply is_rect_set_entry.
    + by rewrite shape_set_entry.
    + intros j0 Hj0. apply Hjs. by right.
Qed.

Lemma entry_sweep_rows a ixs js b i' j' :
  is_rect a = true -> is_rect b = true -> shape b = shape a ->
  (forall i j, i ∈ ixs -> j ∈ js -> interior (shape a) i j) ->
  entry (sweep_rows a ixs js b) i' j' =
  if decide (i' ∈ ixs /\ j' ∈ js) then stencil a i' j' else entry b i' j'.
Proof.
  intros Ha. revert b. induction ixs as [|i ixs IH]; intros b Hb Hs Hin.
  - change (sweep_rows a [] js b) with b.
    rewrite decide_False; [done|]. intros [Hi _]. by inversion Hi.
  - change (sweep_rows a (i :: ixs) js b)
      with (sweep_rows a ixs js (sweep_row a i js b)).
    destruct (sweep_row_inv a i js b Hb Hs) as [Hb' Hs'].
    rewrite IH; [|done|done|by intros; apply Hin; [right|]].
    rewrite entry_sweep_row; [|done|done|done|by intros; apply Hin; [left|]].
    destruct (decide (i' ∈ ixs /\ j' ∈ js)) as [[Hi Hj]|Hn].
    + rewrite decide_True; [done|]. split; [by right|done].
    + destruct (decide (i' = i /\ j' ∈ js)) as [[-> Hj]|Hn2].
      * rewrite decide_True; [done|]. split; [left|done].
      * rewrite decide_False; [done|]. intros [Hi Hj].
        apply elem_of_cons in Hi as [->|Hi]; [by apply Hn2|by apply Hn].
Qed.

Lemma elem_of_range k start stop :
  k ∈ range start stop <-> start <= k /\ k < stop.
Proof. unfold range. rewrite elem_of_seq. lia. Qed.

Lemma jacobi_inv a :
  is_rect a = true -> is_rect (jacobi a) = true /\ shape (jacobi a) = shape a.
Proof. intros Ha. by apply sweep_rows_inv. Qed.

(** The sweep as a function on array values, point by point. *)
Lemma entry_jacobi a i j :
  is_rect a = true ->
  entry (jacobi a) i j =
  if decide (interior (shape a) i j) then stencil a i j else entry a i j.
Proof.
  intros Ha. unfold jacobi. rewrite entry_sweep_rows; [|done..|].
  - destruct (decide (interior (shape a) i j)) as [Hint|Hn].
    + rewrite decide_True; [done|]. rewrite !elem_of_range.
      destruct Hint as (? & ? & ? & ?). lia.
    + rewrite decide_False; [done|]. rewrite !elem_of_range.
      intros [? ?]. apply Hn. unfold interior. lia.
  - intros i0 j0. rewrite !elem_of_range. unfold interior. lia.
Qed.

End SweepFacts.

Section RunFacts.
Context {T : Type} `{Dtype T}.
Implicit Types (a b : ndarray T) (h : heap T) (l : loc).

Lemma bind_ok {A B} (m : M T A) (k : A -> M T B) h x h' :
  m h = Ok (x, h') -> bind m k h = k x h'.
Proof. unfold bind. by intros ->. Qed.

Lemma bind_raise {A B} (m : M T A) (k : A -> M T B) h e :
  m h = Raise e -> bind m k h = Raise e.
Proof. unfold bind. by intros ->. Qed.

Lemma bind_inv {A B} (m : M T A) (k : A -> M T B) h y h'' :
  bind m k h = Ok (y, h'') ->
  exists x h', m h = Ok (x, h') /\ k x h' = Ok (y, h'').
Proof.
  unfold bind. destruct (m h) as [[x h']|e]; [|done]. intros Hk. eauto.
Qed.

Lemma load_ok h l a : h !! l = Some a -> load l h = Ok (a, h).
Proof. unfold load. by intros ->. Qed.

Lemma getitem_ok h l a i j v :
  h !! l = Some a -> entry a i j = Some v -> getitem l i j h = Ok (v, h).
Proof.
  intros Hl He. unfold getitem. rewrite (bind_ok _ _ _ _ _ (load_ok _ _ _ Hl)).
  by rewrite He.
Qed.

Lemma setitem_ok h l a i j v :
  h !! l = Some a -> is_Some (entry a i j) ->
  setitem l i j v h = Ok (tt, <[l := set_entry a i j v]> h).
Proof.
  intros Hl [x He]. unfold setitem.
  rewrite (bind_ok _ _ _ _ _ (load_ok _ _ _ Hl)). by rewrite He.
Qed.

(** The inner loop writes row [i] of the copy and nothing else. *)
Lemma inner_loop_run a U N i js : forall b h,
  h !! U = Some a -> h !! N = Some b -> U <> N ->
  is_rect a = true -> is_rect b = true -> shape b = shape a ->
  (forall j, j ∈ js -> interior (shape a) i j) ->
  for_each js (fun j =>
      x1 <- getitem U (i + 1) j ;;
      x2 <- getitem U (i - 1) j ;;
      x3 <- getitem U i (j + 1) ;;
      x4 <- getitem U i (j - 1) ;;
      setitem N i j
        (true_divide (add (add (add x1 x2) x3) x4) (of_int 4))) h
  = Ok (tt, <[N := sweep_row a i js b]> h).
Proof.
  induction js as [|j js IH]; intros b h HU HN Hne Ha Hb Hs Hjs.
  - change (sweep_row a i [] b) with b. by rewrite list_insert_id.
  - assert (Hint : interior (shape a) i j) by (apply Hjs; left).
    destruct (stencil_is_Some a i j Ha Hint) as [v Hv].
    rewrite sweep_row_cons, Hv.
    unfold stencil in Hv.
    destruct (entry a (i + 1) j) as [x1|] eqn:E1; [|done].
    destruct (entry a (i - 1) j) as [x2|] eqn:E2; [|done].
    destruct (entry a i (j + 1)) as [x3|] eqn:E3; [|done].
    destruct (entry a i (j - 1)) as [x4|] eqn:E4; [|done].
    simpl in Hv. injection Hv as <-.
    assert (Hbe : is_Some (entry b i j)).
    { apply entry_is_Some; [done|]. rewrite Hs.
      destruct Hint as (? & ? & ? & ?). lia. }
    cbn [for_each]. erewrite bind_ok; last first.
    { erewrite bind_ok by (by eapply getitem_ok).
      erewrite bind_ok by (by eapply getitem_ok).
      erewrite bind_ok by (by eapply getitem_ok).
      erewrite bind_ok by (by eapply getitem_ok).
      by eapply setitem_ok. }
    set (b1 := set_entry b i j _).
    rewrite (IH b1 (<[N := b1]> h)).
    + by rewrite list_insert_insert_eq.
    + by rewrite list_lookup_insert_ne.
    + apply list_lookup_insert_eq. by eapply lookup_lt_Some.
    + done.
    + done.
    + by apply is_rect_set_entry.
    + unfold b1. by rewrite shape_set_entry.
    + intros j0 Hj0. apply Hjs. by right.
Qed.

(** The outer loop performs the writes of [sweep_rows]. *)
Lemma outer_loop_run a U N ixs js : forall b h,
  h !! U = Some a -> h !! N = Some b -> U <> N ->
  is_rect a = true -> is_rect b = true -> shape b = shape a ->
  (forall i j, i ∈ ixs -> j ∈ js -> interior (shape a) i j) ->
  for_each ixs (fun i =>
    for_each js (fun j =>
      x1 <- getitem U (i + 1) j ;;
      x2 <- getitem U (i - 1) j ;;
      x3 <- getitem U i (j + 1) ;;
      x4 <- getitem U i (j - 1) ;;
      setitem N i j
        (true_divide (add (add (add x1 x2) x3) x4) (of_int 4)))) h
  = Ok (tt, <[N := sweep_rows a ixs js b]> h).
Proof.
  induction ixs as [|i ixs IH]; intros b h HU HN Hne Ha Hb Hs Hin.
  - change (sweep_rows a [] js b) with b. by rewrite list_insert_id.
  - cbn [for_each]. erewrite bind_ok; last first.
    { eapply inner_loop_run; eauto. intros j Hj. apply Hin; [left|done]. }
    destruct (sweep_row_inv a i js b Hb Hs) as [Hb' Hs'].
    set (b1 := sweep_row a i js b) in *.
    rewrite (IH b1 (<[N := b1]> h)).
    + by rewrite list_insert_insert_eq.
    + by rewrite list_lookup_insert_ne.
    + apply list_lookup_insert_eq. by eapply lookup_lt_Some.
    + done.
    + done.
    + done.
    + done.
    + intros i0 j0 Hi0 Hj0. apply Hin; [by right|done].
Qed.

(** One call of [finite_difference] on a rectangular array: it returns a
    fresh reference to the swept copy and leaves the rest of the store
    as it was. *)
Lemma finite_difference_run h U dx a :
  h !! U = Some a -> is_rect a = true ->
  finite_difference U dx h = Ok (length h, h ++ [jacobi a]).
Proof.
  intros HU Ha. unfold finite_difference, get_shape.
  assert (HUlt : U < length h) by (by eapply lookup_lt_Some).
  erewrite bind_ok; last first.
  { erewrite bind_ok by (by apply load_ok). reflexivity. }
  destruct (shape a) as [Nx Ny] eqn:Hsh.
  erewrite bind_ok; last first.
  { unfold copy. erewrite bind_ok by (by apply load_ok). reflexivity. }
  erewrite bind_ok; last first.
  { eapply (outer_loop_run a U (length h) _ _ a).
    - by apply lookup_app_l_Some.
    - by apply list_lookup_middle.
    - lia.
    - done.
    - done.
    - done.
    - intros i j. rewrite !elem_of_range, Hsh. unfold interior. simpl. lia. }
  unfold ret. do 2 f_equal.
  replace (length h) with (length h + 0) at 1 by lia.
  rewrite insert_app_r. simpl. unfold jacobi. by rewrite Hsh.
Qed.

End RunFacts.

Section LoopFacts.
Context {T : Type} `{Dtype T}.
Implicit Types (a b : ndarray T) (h : heap T) (l : loc) (e : env).

Lemma residual_run h U N a b :
  h !! U = Some a -> h !! N = Some b ->
  residual U N h = lift (max_abs_diff a b) h.
Proof.
  intros HU HN. unfold residual, max_abs_diff.
  rewrite (bind_ok _ _ _ _ _ (load_ok _ _ _ HU)).
  rewrite (bind_ok _ _ _ _ _ (load_ok _ _ _ HN)).
  unfold bind, lift. by destruct (np_subtract a b).
Qed.

(** The residual of two rectangular arrays of one non-empty shape exists. *)
Lemma max_abs_diff_ok a b :
  is_rect a = true -> is_rect b = true -> shape b = shape a ->
  nonempty a = true ->
  exists r, max_abs_diff a b = Ok r.
Proof.
  intros [Hla Hra]%is_rect_spec [Hlb Hrb]%is_rect_spec Hs Hne.
  unfold nonempty in Hne. apply andb_true_iff in Hne as [Hx Hy].
  apply Nat.ltb_lt in Hx, Hy.
  unfold max_abs_diff, np_subtract. rewrite decide_True by done.
  unfold np_max, np_abs. cbn [rows shape].
  rewrite Hs in Hlb, Hrb.
  destruct (rows a) as [|ra rsa]; [simpl in Hla; lia|].
  destruct (rows b) as [|rb rsb]; [simpl in Hlb; lia|].
  apply Forall_cons_1 in Hra as [Hra _]. apply Forall_cons_1 in Hrb as [Hrb _].
  destruct ra as [|x ra]; [simpl in Hra; lia|].
  destruct rb as [|y rb]; [simpl in Hrb; lia|].
  simpl. eauto.
Qed.

Lemma jacobi_n_inv k a :
  is_rect a = true ->
  is_rect (jacobi_n k a) = true /\ shape (jacobi_n k a) = shape a.
Proof.
  intros Ha. induction k as [|k [IH1 IH2]]; [done|].
  change (jacobi_n (S k) a) with (jacobi (jacobi_n k a)).
  destruct (jacobi_inv _ IH1) as [? Hs]. split; [done|]. by rewrite Hs.
Qed.

Lemma jacobi_n_succ_r k a : jacobi_n (S k) a = jacobi_n k (jacobi a).
Proof. unfold jacobi_n. apply Nat.iter_succ_r. Qed.

Lemma nonempty_shape a b :
  shape b = shape a -> nonempty a = true -> nonempty b = true.
Proof. unfold nonempty. by intros ->. Qed.

(** What the loop does, started on a rectangular non-empty field [a]: it
    returns normally after [k] sweeps whose residuals were not below [tol];
    [U] then holds the field after those [k] sweeps, and the loop either
    left through [break] in iteration [k], with the next field in [U_new],
    or ran out of iterations. *)
Lemma iterate_spec its dx tol : forall e h a,
  h !! U e = Some a -> is_rect a = true -> nonempty a = true ->
  exists k e' hs,
    iterate its dx tol e h = Ok (e', h ++ hs) /\
    k <= length its /\
    (forall m, m < k -> exists r,
        max_abs_diff (jacobi_n m a) (jacobi_n (S m) a) = Ok r /\
        less r tol = false) /\
    (h ++ hs) !! U e' = Some (jacobi_n k a) /\
    U e' < length h + k /\
    ((exists it r,
        its !! k = Some it /\
        max_abs_diff (jacobi_n k a) (jacobi_n (S k) a) = Ok r /\
        less r tol = true /\
        stdout e' = stdout e ++ [it] /\ i e' = Some it /\
        U_new e' = Some (length h + k) /\
        (h ++ hs) !! (length h + k) = Some (jacobi_n (S k) a) /\
        length hs = S k)
     \/ (k = length its /\ stdout e' = stdout e /\ length hs = k /\
         match last its with
         | None => e' = e
         | Some it => i e' = Some it /\ U_new e' = Some (U e')
         end)).
Proof.
  induction its as [|it its IH]; intros e h a HU Ha Hne.
  - exists 0, e, []. rewrite app_nil_r, Nat.add_0_r.
    split; [done|]. split; [done|].
    split; [intros m Hm; lia|]. split; [done|].
    split; [by eapply lookup_lt_Some|]. right. done.
  - cbn [iterate].
    pose proof (finite_difference_run h (U e) dx a HU Ha) as Hfd.
    destruct (jacobi_inv a Ha) as [Ha1 Hs1].
    assert (HU1 : (h ++ [jacobi a]) !! U e = Some a)
      by (by apply lookup_app_l_Some).
    assert (HN1 : (h ++ [jacobi a]) !! length h = Some (jacobi a))
      by (by apply list_lookup_middle).
    destruct (max_abs_diff_ok a (jacobi a) Ha Ha1 Hs1 Hne) as [r Hr].
    rewrite (bind_ok _ _ _ _ _ Hfd).
    erewrite bind_ok; last first.
    { rewrite (residual_run _ _ _ _ _ HU1 HN1), Hr. reflexivity. }
    destruct (less r tol) eqn:Hlt.
    + exists 0, {| U := U e; U_new := Some (length h); i := Some it;
                   stdout := stdout e ++ [it] |}, [jacobi a].
      rewrite Nat.add_0_r.
      split; [done|]. split; [simpl; lia|]. split; [intros m Hm; lia|].
      split; [done|]. split; [by eapply lookup_lt_Some|].
      left. exists it, r. repeat split; done.
    + set (e1 := {| U := length h; U_new := Some (length h); i := Some it;
                    stdout := stdout e |}).
      destruct (IH e1 (h ++ [jacobi a]) (jacobi a) HN1 Ha1
                  (nonempty_shape _ _ Hs1 Hne))
        as (k & e' & hs & Hrun & Hk & Hres & HU' & Hlt' & Hend).
      exists (S k), e', (jacobi a :: hs).
      rewrite length_app in Hlt', Hend. simpl in Hlt', Hend.
      replace (length h + 1 + k) with (length h + S k) in Hlt', Hend by lia.
      rewrite <- app_assoc in Hrun, HU', Hend. simpl in Hrun, HU', Hend.
      split; [done|]. split; [simpl; lia|]. split.
      { intros [|m] Hm.
        - exists r. done.
        - rewrite (jacobi_n_succ_r (S m)), (jacobi_n_succ_r m).
          apply Hres. lia. }
      split; [by rewrite jacobi_n_succ_r|]. split; [done|].
      destruct Hend
        as [(it' & r' & Hit & Hr' & Hltr & Hout & Hi & HN & HNv & Hlen)
           |(-> & Hout & Hlen & Hlast)].
      * left. exists it', r'.
        rewrite (jacobi_n_succ_r (S k)), (jacobi_n_succ_r k).
        repeat split; try done. simpl. by rewrite Hlen.
      * right. split; [done|]. split; [done|]. split; [simpl; by rewrite Hlen|].
        destruct its as [|it2 its2].
        { simpl in Hlast. subst e'. done. }
        change (last (it :: it2 :: its2)) with (last (it2 :: its2)).
        destruct (last (it2 :: its2)) eqn:E; [exact Hlast|].
        by apply last_None in E.
Qed.

End LoopFacts.

(** ** Order facts of IEEE 754 comparison *)

Section SpecFloatOrder.

Lemma SFcompare_refl x : x <> S754_nan -> SFcompare x x = Some Eq.
Proof.
  destruct x as [s|s|  |s m e]; simpl; try congruence.
  - destruct s; reflexivity.
  - intros _.
    destruct s; rewrite Z.compare_refl, Pos.compare_cont_refl; reflexivity.
Qed.

(** Case analysis on every integer comparison in sight. *)
Ltac cmp_cases :=
  repeat match goal with
  | |- context [(?a ?= ?b)%Z] => destruct (Z.compare_spec a b)
  | H : context [(?a ?= ?b)%Z] |- _ => destruct (Z.compare_spec a b)
  | |- context [Pos.compare_cont Eq ?a ?b] =>
      change (Pos.compare_cont Eq a b) with (Pos.compare a b);
      destruct (Pos.compare_spec a b)
  | H : context [Pos.compare_cont Eq ?a ?b] |- _ =>
      change (Pos.compare_cont Eq a b) with (Pos.compare a b) in H;
      destruct (Pos.compare_spec a b)
  end.

Lemma SFcompare_antisym x y :
  SFcompare y x = option_map CompOpp (SFcompare x y).
Proof.
  destruct x as [s1|s1|  |s1 m1 e1], y as [s2|s2|  |s2 m2 e2]; simpl;
    try destruct s1; try destruct s2; try reflexivity;
    cmp_cases; simpl; try reflexivity; try lia.
Qed.

Lemma SFleb_trans x y z :
  SFleb x y = true -> SFleb y z = true -> SFleb x z = true.
Proof.
  unfold SFleb.
  destruct x as [s1|s1|  |s1 m1 e1], y as [s2|s2|  |s2 m2 e2],
           z as [s3|s3|  |s3 m3 e3]; simpl;
    try destruct s1; try destruct s2; try destruct s3; simpl;
    try congruence; try reflexivity;
    cmp_cases; simpl; try congruence; try reflexivity; try lia.
Qed.

Lemma SFleb_total x y :
  x <> S754_nan -> y <> S754_nan -> SFleb x y = false -> SFltb y x = true.
Proof.
  unfold SFleb, SFltb. rewrite (SFcompare_antisym x y).
  destruct x as [s1|s1|  |s1 m1 e1], y as [s2|s2|  |s2 m2 e2]; simpl;
    try congruence;
    try destruct s1; try destruct s2; simpl; try congruence;
    cmp_cases; simpl; try congruence.
Qed.

End SpecFloatOrder.

(** ** Facts of binary64 arithmetic used by the solver *)

Section Float64Facts.
Open Scope float_scope.

Lemma f64_is_nan_spec x : is_nan x = true <-> Prim2SF x = S754_nan.
Proof.
  unfold is_nan. rewrite FloatAxioms.eqb_spec. unfold SFeqb. split.
  - destruct (Prim2SF x) eqn:E; try reflexivity;
      rewrite SFcompare_refl by discriminate; discriminate.
  - intros ->. reflexivity.
Qed.

Lemma f64_is_nan_false x : is_nan x = false <-> Prim2SF x <> S754_nan.
Proof.
  rewrite <- f64_is_nan_spec. destruct (is_nan x); split; congruence.
Qed.

Lemma f64_ltb_asym x y : (x <? y) = true -> (y <? x) = false.
Proof.
  rewrite !FloatAxioms.ltb_spec. unfold SFltb.
  rewrite (SFcompare_antisym (Prim2SF x)).
  destruct (SFcompare (Prim2SF x) (Prim2SF y)) as [[| |]|]; simpl; congruence.
Qed.

Lemma f64_eqb_not_ltb x y : (x =? y) = true -> (x <? y) = false.
Proof.
  rewrite FloatAxioms.eqb_spec, FloatAxioms.ltb_spec. unfold SFeqb, SFltb.
  destruct (SFcompare (Prim2SF x) (Prim2SF y)) as [[| |]|]; simpl; congruence.
Qed.

Lemma f64_leb_trans x y z :
  (x <=? y) = true -> (y <=? z) = true -> (x <=? z) = true.
Proof. rewrite !FloatAxioms.leb_spec. apply SFleb_trans. Qed.

Lemma f64_leb_refl x : is_nan x = false -> (x <=? x) = true.
Proof.
  rewrite f64_is_nan_false, FloatAxioms.leb_spec. intros Hx. unfold SFleb.
  now rewrite SFcompare_refl.
Qed.

Lemma f64_leb_false_ltb x y :
  is_nan x = false -> is_nan y = false -> (x <=? y) = false -> (y <=? x) = true.
Proof.
  rewrite !f64_is_nan_false, !FloatAxioms.leb_spec. intros Hx Hy Hle.
  pose proof (SFleb_total _ _ Hx Hy Hle) as Hlt.
  unfold SFltb in Hlt. unfold SFleb.
  destruct (SFcompare (Prim2SF y) (Prim2SF x)) as [[| |]|]; congruence.
Qed.

Lemma f64_leb_nan_l x y : is_nan x = true -> (x <=? y) = false.
Proof.
  rewrite f64_is_nan_spec, FloatAxioms.leb_spec. intros ->. reflexivity.
Qed.

Lemma f64_leb_nan_r x y : is_nan y = true -> (x <=? y) = false.
Proof.
  rewrite f64_is_nan_spec, FloatAxioms.leb_spec. intros ->. unfold SFleb.
  destruct (Prim2SF x); reflexivity.
Qed.

(** The sign of the rounded result is the only thing the sign argument of
    [binary_round] decides. *)
Lemma SFabs_binary_round s s' m e :
  SFabs (binary_round prec emax s m e) = SFabs (binary_round prec emax s' m e).
Proof.
  unfold binary_round. destruct (shl_align _ _ _) as [mz ez].
  unfold binary_round_aux. destruct (shr_fexp _ _ _ _ _) as [mrs' e'].
  destruct (shr_fexp _ _ _ _ _) as [mrs'' e''].
  destruct (shr_m mrs''); try reflexivity.
  destruct (e'' <=? emax - prec)%Z; reflexivity.
Qed.

Lemma SFabs_binary_normalize_opp m e :
  SFabs (binary_normalize prec emax (- m) e false) =
  SFabs (binary_normalize prec emax m e false).
Proof.
  destruct m; simpl; try reflexivity; apply SFabs_binary_round.
Qed.

Lemma SFabs_SFsub_comm x y :
  SFabs (SF64sub x y) = SFabs (SF64sub y x).
Proof.
  unfold SF64sub, SFsub.
  destruct x as [s1|s1|  |s1 m1 e1], y as [s2|s2|  |s2 m2 e2];
    try destruct s1; try destruct s2; try reflexivity;
    rewrite (Z.min_comm e2 e1), <- SFabs_binary_normalize_opp; f_equal; f_equal;
    unfold cond_Zopp; lia.
Qed.

Lemma f64_abs_sub_comm x y : abs (x - y) = abs (y - x).
Proof.
  apply Prim2SF_inj. rewrite !FloatAxioms.abs_spec, !FloatAxioms.sub_spec.
  apply SFabs_SFsub_comm.
Qed.


End Float64Facts.

Section ResidualFacts.
Context {T : Type} `{Dtype T}.
Implicit Types (a b d : ndarray T) (h : heap T).

Lemma elem_of_concat_entry d y :
  y ∈ concat (rows d) <-> exists i j, entry d i j = Some y.
Proof.
  rewrite list_elem_of_In, in_concat. unfold entry. split.
  - intros (row & Hrow & Hy). apply list_elem_of_In in Hrow, Hy.
    apply list_elem_of_lookup in Hrow as [i Hi].
    apply list_elem_of_lookup in Hy as [j Hj].
    exists i, j. by rewrite Hi.
  - intros (i & j & Hij). destruct (rows d !! i) as [row|] eqn:Hi; [|done].
    exists row. split; apply list_elem_of_In.
    + by eapply list_elem_of_lookup_2.
    + by eapply list_elem_of_lookup_2.
Qed.

Lemma entry_np_abs d i j :
  entry (np_abs d) i j = absolute <$> entry d i j.
Proof.
  unfold entry, np_abs. cbn [rows].
  change (map (map absolute) (rows d)) with (map absolute <$> rows d).
  rewrite list_lookup_fmap. destruct (rows d !! i) as [row|]; [|done].
  simpl. change (map absolute row) with (absolute <$> row).
  by rewrite list_lookup_fmap.
Qed.

Lemma entry_np_subtract a b d i j :
  np_subtract a b = Ok d ->
  entry d i j =
  match entry a i j, entry b i j with
  | Some x, Some y => Some (subtract x y)
  | _, _ => None
  end.
Proof.
  unfold np_subtract. destruct (decide _); [|done].
  intros [= <-]. unfold entry. cbn [rows]. rewrite lookup_zip_with.
  destruct (rows a !! i) as [ra|]; simpl; [|done].
  destruct (rows b !! i) as [rb|]; simpl.
  - rewrite lookup_zip_with. destruct (ra !! j); simpl; [|done].
    by destruct (rb !! j).
  - by destruct (ra !! j).
Qed.

Lemma maximum_cases (x y : T) : maximum x y = x \/ maximum x y = y.
Proof. unfold maximum. destruct (_ || _); auto. Qed.

Lemma foldl_maximum_elem (xs : list T) : forall x,
  foldl maximum x xs ∈ x :: xs.
Proof.
  induction xs as [|y ys IH]; intros x; [left|].
  simpl. specialize (IH (maximum x y)).
  apply elem_of_cons in IH as [->|Hin].
  - destruct (maximum_cases x y) as [->| ->]; [left|right; left].
  - right. by right.
Qed.

(** The residual is the absolute difference at some grid point. *)
Lemma max_abs_diff_elem a b r :
  max_abs_diff a b = Ok r ->
  exists i j x y,
    entry a i j = Some x /\ entry b i j = Some y /\
    r = absolute (subtract x y).
Proof.
  unfold max_abs_diff. destruct (np_subtract a b) as [d|] eqn:Hd; [|done].
  unfold np_max. destruct (concat _) as [|z zs] eqn:Hc; [done|].
  intros [= <-]. pose proof (foldl_maximum_elem zs z) as Hin.
  rewrite <- Hc in Hin. apply elem_of_concat_entry in Hin as (i & j & Hij).
  rewrite entry_np_abs, (entry_np_subtract _ _ _ _ _ Hd) in Hij.
  exists i, j. destruct (entry a i j) as [x|]; [|done].
  destruct (entry b i j) as [y|]; [|done].
  exists x, y. simpl in Hij. by injection Hij as <-.
Qed.

End ResidualFacts.

Section SweepsFacts.
Context {T : Type} `{Dtype T}.
Implicit Types (a b d : ndarray T) (h : heap T).

(** [n] sweeps allocate [n] arrays and end on the [n]-fold swept value. *)
Lemma sweeps_run n dx : forall h U a,
  h !! U = Some a -> is_rect a = true ->
  exists N hs,
    sweeps n U dx h = Ok (N, h ++ hs) /\
    (h ++ hs) !! N = Some (jacobi_n n a) /\ length hs = n.
Proof.
  induction n as [|n IH]; intros h U a HU Ha.
  - exists U, []. rewrite app_nil_r. done.
  - cbn [sweeps].
    rewrite (bind_ok _ _ _ _ _ (finite_difference_run h U dx a HU Ha)).
    destruct (jacobi_inv a Ha) as [Ha1 _].
    destruct (IH (h ++ [jacobi a]) (length h) (jacobi a))
      as (N & hs & Hrun & HN & Hlen);
      [by apply list_lookup_middle|done|].
    exists N, (jacobi a :: hs). rewrite <- app_assoc in Hrun, HN.
    rewrite jacobi_n_succ_r. split; [done|]. split; [done|].
    simpl. by rewrite Hlen.
Qed.

(** Entries outside the interior are never written. *)
Lemma entry_jacobi_n_frame n a i j :
  is_rect a = true -> ~ interior (shape a) i j ->
  entry (jacobi_n n a) i j = entry a i j.
Proof.
  intros Ha Hn. induction n as [|n IH]; [done|].
  change (jacobi_n (S n) a) with (jacobi (jacobi_n n a)).
  destruct (jacobi_n_inv n a Ha) as [Hr Hs].
  rewrite entry_jacobi by done. rewrite Hs. by rewrite decide_False.
Qed.

Lemma on_boundary_not_interior sh i j :
  on_boundary sh i j -> ~ interior sh i j.
Proof. unfold on_boundary, interior. lia. Qed.




End SweepsFacts.

(** ** The reductions [np.max] and [np.min] over an ordered dtype *)

Section ReductionFacts.
Context {T : Type} `{Dtype T}.
Variable le : T -> T -> Prop.
Hypothesis ge_le : forall x y, greater_equal x y = true -> le y x.
Hypothesis le_refl : forall x, isnan x = false -> le x x.
Hypothesis le_trans : forall x y z, le x y -> le y z -> le x z.
Hypothesis le_total : forall x y,
  isnan x = false -> isnan y = false -> greater_equal x y = false -> le x y.
Hypothesis ge_nan : forall x y, isnan y = true -> greater_equal x y = false.

Lemma maximum_upper x y :
  isnan x = false -> isnan y = false ->
  le x (maximum x y) /\ le y (maximum x y).
Proof using ge_le le_refl le_total.
  intros Hx Hy. unfold maximum. rewrite Hx, orb_false_r.
  destruct (greater_equal x y) eqn:Hge; auto.
Qed.


Lemma foldl_maximum_nonnan xs : forall x,
  isnan (foldl maximum x xs) = false ->
  forall y, y ∈ x :: xs -> isnan y = false.
Proof using ge_nan.
  induction xs as [|z zs IH]; intros x Hr y Hy.
  - apply list_elem_of_singleton in Hy as ->. done.
  - simpl in Hr. pose proof (IH _ Hr) as Hall.
    assert (Hm : isnan (maximum x z) = false) by (apply Hall; left).
    unfold maximum in Hm.
    destruct (isnan x) eqn:Hx.
    { rewrite orb_true_r in Hm. congruence. }
    rewrite orb_false_r in Hm.
    destruct (isnan z) eqn:Hz.
    { rewrite (ge_nan x z Hz) in Hm. congruence. }
    apply elem_of_cons in Hy as [->|Hy]; [done|].
    apply elem_of_cons in Hy as [->|Hy]; [done|].
    apply Hall. by right.
Qed.

Lemma foldl_maximum_upper xs : forall x,
  (forall y, y ∈ x :: xs -> isnan y = false) ->
  forall y, y ∈ x :: xs -> le y (foldl maximum x xs).
Proof using ge_le le_refl le_trans le_total.
  induction xs as [|z zs IH]; intros x Hall y Hy.
  - apply list_elem_of_singleton in Hy as ->. apply le_refl, Hall. left.
  - simpl.
    assert (Hx : isnan x = false) by (apply Hall; left).
    assert (Hz : isnan z = false) by (apply Hall; right; left).
    destruct (maximum_upper x z Hx Hz) as [Hxm Hzm].
    assert (Hall' : forall y, y ∈ maximum x z :: zs -> isnan y = false).
    { intros y' [->|Hy']%elem_of_cons.
      - by destruct (maximum_cases x z) as [->| ->].
      - apply Hall. right. by right. }
    apply elem_of_cons in Hy as [->|Hy].
    { eapply le_trans; [exact Hxm|]. apply IH; [done|left]. }
    apply elem_of_cons in Hy as [->|Hy].
    { eapply le_trans; [exact Hzm|]. apply IH; [done|left]. }
    apply IH; [done|by right].
Qed.



End ReductionFacts.

Section SolveFacts.
Context {T : Type} `{Dtype T}.
Implicit Types (a b d : ndarray T) (h : heap T).

Lemma last_range n : 0 < n -> last (range 0 n) = Some (n - 1).
Proof.
  intros Hn. unfold range. replace (n - 0) with (S (n - 1)) by lia.
  rewrite seq_S. apply last_snoc.
Qed.

(** The loop cell run on a rectangular non-empty field: see [iterate_spec].
    The iteration numbers are [0, 1, ...], so the [k]-th is [k]. *)
Lemma solve_spec U0 dx max_iter tol h a :
  h !! U0 = Some a -> is_rect a = true -> nonempty a = true ->
  exists k e' hs,
    solve U0 dx max_iter tol h = Ok (e', h ++ hs) /\
    k <= Z.to_nat max_iter /\
    (forall m, m < k -> exists r,
        max_abs_diff (jacobi_n m a) (jacobi_n (S m) a) = Ok r /\
        less r tol = false) /\
    (h ++ hs) !! U e' = Some (jacobi_n k a) /\
    U e' < length h + k /\
    length hs = iterations_used e' /\
    ((exists r,
        k < Z.to_nat max_iter /\
        max_abs_diff (jacobi_n k a) (jacobi_n (S k) a) = Ok r /\
        less r tol = true /\
        stdout e' = [k] /\ i e' = Some k /\
        U_new e' = Some (length h + k) /\
        (h ++ hs) !! (length h + k) = Some (jacobi_n (S k) a))
     \/ (k = Z.to_nat max_iter /\ stdout e' = [] /\ iterations_used e' = k /\
         (0 < k -> U_new e' = Some (U e')))).
Proof.
  intros HU Ha Hne. unfold solve.
  set (e0 := {| U := U0; U_new := None; i := None; stdout := [] |}).
  destruct (iterate_spec (range 0 (Z.to_nat max_iter)) dx tol e0 h a HU Ha Hne)
    as (k & e' & hs & Hrun & Hk & Hres & HU' & HUlt & Hend).
  unfold range in Hk. rewrite length_seq, Nat.sub_0_r in Hk.
  exists k, e', hs. split; [done|]. split; [done|]. split; [done|].
  split; [done|]. split; [done|].
  destruct Hend as [(it & r & Hit & Hr & Hlt & Hout & Hi & HN & HNv & Hlen)
                   |(Hkeq & Hout & Hlen & Hlast)].
  - unfold range in Hit. apply lookup_seq in Hit as [-> Hlt'].
    simpl in *. split.
    { unfold iterations_used. by rewrite Hi. }
    left. exists r. repeat split; try done. lia.
  - unfold range in Hkeq. rewrite length_seq, Nat.sub_0_r in Hkeq.
    assert (Hused : iterations_used e' = k).
    { destruct (decide (k = 0)) as [Hz|Hnz].
      - rewrite <- Hkeq, Hz in Hlast. simpl in Hlast. by subst e'.
      - rewrite <- Hkeq, last_range in Hlast by lia.
        destruct Hlast as [Hi _]. unfold iterations_used. rewrite Hi. lia. }
    split; [by rewrite Hused|]. right. repeat split; try done.
    intros Hpos. rewrite <- Hkeq, last_range in Hlast by lia. tauto.
Qed.

End SolveFacts.

(** * The solver's contract *)

Section Contract.
Context {T : Type} `{Dtype T}.
Implicit Types (a b d old : ndarray T) (h : heap T).

(** C1: one call of [finite_difference] on a field [old] returns a field
    [new] in which every interior point [(i, j)], [1 <= i <= Nx-2] and
    [1 <= j <= Ny-2], holds
    [(old[i+1,j] + old[i-1,j] + old[i,j+1] + old[i,j-1]) / 4], the four
    neighbours being read from [old] as it was before the sweep. *)
Theorem finite_difference_averages_old_neighbours h (U0 : loc) dx old :
  h !! U0 = Some old -> is_rect old = true ->
  exists N h' new,
    finite_difference U0 dx h = Ok (N, h') /\
    h' !! N = Some new /\
    forall i j,
      1 <= i <= fst (shape old) - 2 -> 1 <= j <= snd (shape old) - 2 ->
      exists x1 x2 x3 x4,
        entry old (i + 1) j = Some x1 /\ entry old (i - 1) j = Some x2 /\
        entry old i (j + 1) = Some x3 /\ entry old i (j - 1) = Some x4 /\
        entry new i j =
          Some (true_divide (add (add (add x1 x2) x3) x4) (of_int 4)).
Proof.
  intros HU Ha. exists (length h), (h ++ [jacobi old]), (jacobi old).
  split; [by apply finite_difference_run|].
  split; [by apply list_lookup_middle|].
  intros i j Hi Hj.
  assert (Hint : interior (shape old) i j) by (unfold interior; lia).
  rewrite entry_jacobi by done. rewrite decide_True by done.
  destruct (stencil_is_Some old i j Ha Hint) as [v Hv]. rewrite Hv.
  unfold stencil in Hv.
  destruct (entry old (i + 1) j) as [x1|]; [|done].
  destruct (entry old (i - 1) j) as [x2|]; [|done].
  destruct (entry old i (j + 1)) as [x3|]; [|done].
  destruct (entry old i (j - 1)) as [x4|]; [|done].
  exists x1, x2, x3, x4. by simplify_eq/=.
Qed.

(** C10: a sweep never mutates its input: after [finite_difference(U, dx)]
    returns, the array behind [U] (and every other array that existed) is
    what it was; all writes went to a fresh array, which is the one
    returned. *)
Theorem finite_difference_leaves_input h (U0 : loc) dx old :
  h !! U0 = Some old -> is_rect old = true ->
  exists N h',
    finite_difference U0 dx h = Ok (N, h') /\
    h' !! U0 = Some old /\
    h !! N = None /\ is_Some (h' !! N) /\
    forall l b, h !! l = Some b -> h' !! l = Some b.
Proof.
  intros HU Ha. exists (length h), (h ++ [jacobi old]).
  split; [by apply finite_difference_run|].
  split; [by apply lookup_app_l_Some|].
  split; [by apply lookup_ge_None|].
  split; [by rewrite list_lookup_middle|].
  intros l b Hl. by apply lookup_app_l_Some.
Qed.

(** C3: for every input field and every number of sweeps the entries of
    row 0, row Nx-1, column 0 and column Ny-1 after the sweeps are those of
    the initial field; the same holds for the field the loop ends on. *)
Theorem boundary_is_never_written h (U0 : loc) dx a :
  h !! U0 = Some a -> is_rect a = true ->
  (forall n, exists N h' a',
      sweeps n U0 dx h = Ok (N, h') /\ h' !! N = Some a' /\
      shape a' = shape a /\
      forall i j, on_boundary (shape a) i j -> entry a' i j = entry a i j) /\
  (nonempty a = true ->
   forall max_iter tol, exists e' h' a',
      solve U0 dx max_iter tol h = Ok (e', h') /\ h' !! U e' = Some a' /\
      shape a' = shape a /\
      forall i j, on_boundary (shape a) i j -> entry a' i j = entry a i j).
Proof.
  intros HU Ha. split.
  - intros n.
    destruct (sweeps_run n dx h U0 a HU Ha) as (N & hs & Hrun & HN & _).
    exists N, (h ++ hs), (jacobi_n n a). split; [done|]. split; [done|].
    split; [by apply jacobi_n_inv|].
    intros i j Hb. apply entry_jacobi_n_frame; [done|].
    by apply on_boundary_not_interior.
  - intros Hne max_iter tol.
    destruct (solve_spec U0 dx max_iter tol h a HU Ha Hne)
      as (k & e' & hs & Hrun & _ & _ & HU' & _).
    exists e', (h ++ hs), (jacobi_n k a). split; [done|]. split; [done|].
    split; [by apply jacobi_n_inv|].
    intros i j Hb. apply entry_jacobi_n_frame; [done|].
    by apply on_boundary_not_interior.
Qed.

(** C2, as the code has it: when the convergence test fires, the loop leaves
    through [break] before [U = U_new], so [U] (the field the notebook goes
    on to plot) still refers to the pre-sweep field, the input of the last
    call of [finite_difference]; the post-sweep field, that call's output,
    is the one [U_new] refers to, and their residual is below [tol]. *)
Theorem converged_leaves_new_field_in_U_new h (U0 : loc) dx max_iter tol a :
  h !! U0 = Some a -> is_rect a = true -> nonempty a = true ->
  exists e' h',
    solve U0 dx max_iter tol h = Ok (e', h') /\
    (converged e' = true ->
     exists h0 N old new r,
       h0 !! U e' = Some old /\
       finite_difference (U e') dx h0 = Ok (N, h') /\
       U_new e' = Some N /\ N <> U e' /\
       h' !! U e' = Some old /\ h' !! N = Some new /\
       residual (U e') N h' = Ok (r, h') /\ less r tol = true).
Proof.
  intros HU Ha Hne.
  destruct (solve_spec U0 dx max_iter tol h a HU Ha Hne)
    as (k & e' & hs & Hrun & _ & _ & HU' & HUlt & Hlen & Hend).
  exists e', (h ++ hs). split; [done|]. intros Hconv.
  destruct Hend as [(r & _ & Hr & Hlt & _ & Hi & HN & HNv)|(_ & Hout & _)];
    [|unfold converged in Hconv; by rewrite Hout in Hconv].
  unfold iterations_used in Hlen. rewrite Hi in Hlen.
  set (N := length h + k) in *. set (h' := h ++ hs) in *.
  assert (Hlen' : length h' = S N).
  { unfold h', N. rewrite length_app. lia. }
  destruct (jacobi_n_inv k a Ha) as [Hrk Hsk].
  assert (H0U : take N h' !! U e' = Some (jacobi_n k a)).
  { by rewrite lookup_take_lt. }
  assert (Hsplit : take N h' ++ [jacobi (jacobi_n k a)] = h').
  { rewrite <- (take_drop_middle h' N _ HNv) at 2.
    rewrite drop_ge by lia. done. }
  exists (take N h'), N, (jacobi_n k a), (jacobi_n (S k) a), r.
  split; [done|]. split.
  { rewrite (finite_difference_run _ _ dx _ H0U Hrk).
    rewrite Hsplit, length_take. do 3 f_equal. lia. }
  split; [done|]. split; [lia|]. split; [done|]. split; [done|].
  split; [|done]. by rewrite (residual_run _ _ _ _ _ HU' HNv), Hr.
Qed.


End Contract.

(** ** The solver on float64 fields *)

Section Float64Contract.
Open Scope float_scope.
Implicit Types (a b d old : ndarray float) (h : heap float).

Lemma f64_foldl_maximum_upper (xs : list float) x :
  is_nan (foldl maximum x xs) = false ->
  forall y, y ∈ x :: xs -> (y <=? foldl maximum x xs) = true.
Proof.
  intros Hr.
  apply (foldl_maximum_upper (fun x y => (x <=? y) = true)).
  - intros u v Hge. exact Hge.
  - apply f64_leb_refl.
  - apply f64_leb_trans.
  - intros u v Hu Hv Hge. by apply (f64_leb_false_ltb v u).
  - apply (foldl_maximum_nonnan (T := float)); [|done].
    intros u v Hv. by apply f64_leb_nan_l.
Qed.

(** Unless it is a NaN, the residual bounds the absolute difference at every
    grid point. *)
Lemma max_abs_diff_upper a b r :
  max_abs_diff a b = Ok r -> is_nan r = false ->
  forall i j x y,
    entry a i j = Some x -> entry b i j = Some y ->
    (abs (x - y) <=? r) = true.
Proof.
  unfold max_abs_diff. destruct (np_subtract a b) as [d|] eqn:Hd; [|done].
  unfold np_max. destruct (concat _) as [|z zs] eqn:Hc; [done|].
  intros [= <-] Hr i j x y Hx Hy.
  apply f64_foldl_maximum_upper; [done|].
  rewrite <- Hc. apply elem_of_concat_entry. exists i, j.
  rewrite entry_np_abs, (entry_np_subtract _ _ _ _ _ Hd), Hx, Hy. done.
Qed.

(** C6: after a sweep the loop computes the residual as the maximum, over
    all grid points with the boundary included, of [|new[i,j] - old[i,j]|]:
    the residual is the absolute difference at some point and, unless it is
    a NaN, no point has a larger one.  The loop leaves with the convergence
    message exactly when [residual < tol]; a residual equal to [tol] is not
    below it and goes on to the next iteration. *)
Theorem residual_is_max_norm_and_test_is_strict
    h (e : env) dx tol (it : nat) (its : list nat) old :
  h !! U e = Some old -> is_rect old = true -> nonempty old = true ->
  exists N h' new r,
    finite_difference (U e) dx h = Ok (N, h') /\
    h' !! N = Some new /\
    residual (U e) N h' = Ok (r, h') /\
    (exists i j x y,
        entry new i j = Some x /\ entry old i j = Some y /\
        r = abs (x - y)) /\
    (forall i j, i < fst (shape old) -> j < snd (shape old) ->
      exists x y,
        entry new i j = Some x /\ entry old i j = Some y /\
        (is_nan r = false -> (abs (x - y) <=? r) = true)) /\
    ((r <? tol) = true ->
      iterate (it :: its) dx tol e h =
      Ok ({| U := U e; U_new := Some N; i := Some it;
             stdout := stdout e ++ [it] |}, h')) /\
    ((r <? tol) = false ->
      iterate (it :: its) dx tol e h =
      iterate its dx tol
        {| U := N; U_new := Some N; i := Some it; stdout := stdout e |} h') /\
    ((r =? tol) = true -> (r <? tol) = false).
Proof.
  intros HU Ha Hne.
  pose proof (finite_difference_run h (U e) dx old HU Ha) as Hfd.
  destruct (jacobi_inv old Ha) as [Ha1 Hs1].
  assert (HU1 : (h ++ [jacobi old]) !! U e = Some old)
    by (by apply lookup_app_l_Some).
  assert (HN1 : (h ++ [jacobi old]) !! length h = Some (jacobi old))
    by (by apply list_lookup_middle).
  destruct (max_abs_diff_ok old (jacobi old) Ha Ha1 Hs1 Hne) as [r Hr].
  assert (Hres : residual (U e) (length h) (h ++ [jacobi old])
                 = Ok (r, h ++ [jacobi old])).
  { by rewrite (residual_run _ _ _ _ _ HU1 HN1), Hr. }
  exists (length h), (h ++ [jacobi old]), (jacobi old), r.
  split; [done|]. split; [done|]. split; [done|]. split.
  { destruct (max_abs_diff_elem _ _ _ Hr) as (i & j & y & x & Hy & Hx & ->).
    exists i, j, x, y. split; [done|]. split; [done|].
    apply f64_abs_sub_comm. }
  split.
  { intros i j Hi Hj.
    destruct (proj2 (entry_is_Some old i j Ha) (conj Hi Hj)) as [y Hy].
    destruct (proj2 (entry_is_Some (jacobi old) i j Ha1)) as [x Hx];
      [by rewrite Hs1|].
    exists x, y. split; [done|]. split; [done|]. intros Hnan.
    rewrite f64_abs_sub_comm. by eapply max_abs_diff_upper. }
  split.
  { intros Hlt. cbn [iterate].
    rewrite (bind_ok _ _ _ _ _ Hfd), (bind_ok _ _ _ _ _ Hres).
    cbn [less float64]. by rewrite Hlt. }
  split.
  { intros Hlt. cbn [iterate].
    rewrite (bind_ok _ _ _ _ _ Hfd), (bind_ok _ _ _ _ _ Hres).
    cbn [less float64]. by rewrite Hlt. }
  apply f64_eqb_not_ltb.
Qed.

(** C8: with [max_iter = 1] and a tolerance below the residual of the first
    sweep the solver does not fail: it ends without the convergence
    message, having performed one sweep, and [U] is the field that one
    sweep of the initial field produced. *)
Theorem one_iteration_without_convergence h (U0 : loc) dx tol a :
  h !! U0 = Some a -> is_rect a = true -> nonempty a = true ->
  exists N h1 r,
    finite_difference U0 dx h = Ok (N, h1) /\
    residual U0 N h1 = Ok (r, h1) /\
    ((tol <? r) = true ->
     exists e',
       solve U0 dx 1 tol h = Ok (e', h1) /\
       converged e' = false /\ iterations_used e' = 1%nat /\ U e' = N).
Proof.
  intros HU Ha Hne.
  pose proof (finite_difference_run h U0 dx a HU Ha) as Hfd.
  destruct (jacobi_inv a Ha) as [Ha1 Hs1].
  destruct (max_abs_diff_ok a (jacobi a) Ha Ha1 Hs1 Hne) as [r Hr].
  assert (Hres : residual U0 (length h) (h ++ [jacobi a])
                 = Ok (r, h ++ [jacobi a])).
  { rewrite (residual_run _ _ _ a (jacobi a)), Hr; [done| |].
    - by apply lookup_app_l_Some.
    - by apply list_lookup_middle. }
  exists (length h), (h ++ [jacobi a]), r.
  split; [done|]. split; [done|]. intros Hlt.
  eexists. split.
  - unfold solve. change (range 0 (Z.to_nat 1)) with [0%nat].
    cbn [iterate U].
    rewrite (bind_ok _ _ _ _ _ Hfd), (bind_ok _ _ _ _ _ Hres).
    cbn [less float64]. rewrite (f64_ltb_asym _ _ Hlt). reflexivity.
  - done.
Qed.


(** C7: the 3 x 3 grid with boundary 1.0 and interior 0.0, any tolerance
    [0 < tol < 1] and [max_iter >= 2]: the first sweep sets the interior
    point to exactly 1.0 with residual 1.0, the second sweep has residual
    0.0, and the loop stops there with the convergence message, two sweeps
    performed (the message itself prints the loop index, which counts from
    0). *)
Theorem minimal_grid_converges_at_second_sweep dx tol (max_iter : Z) :
  (0 <? tol) = true -> (tol <? 1) = true -> (2 <= max_iter)%Z ->
  let a0 := initial_field 3 1 in
  exists a1 a2 e',
    finite_difference 0%nat dx [a0] = Ok (1%nat, [a0; a1]) /\
    entry a1 1 1 = Some 1 /\
    residual 0%nat 1%nat [a0; a1] = Ok (1, [a0; a1]) /\
    finite_difference 1%nat dx [a0; a1] = Ok (2%nat, [a0; a1; a2]) /\
    residual 1%nat 2%nat [a0; a1; a2] = Ok (0, [a0; a1; a2]) /\
    solve 0%nat dx max_iter tol [a0] = Ok (e', [a0; a1; a2]) /\
    converged e' = true /\ iterations_used e' = 2%nat /\
    stdout e' = [1%nat].
Proof.
  intros Hpos Hlt Hmax a0.
  set (a1 := Build_ndarray (3, 3)%nat [[1; 1; 1]; [1; 1; 1]; [1; 1; 1]]).
  assert (Hfd1 : finite_difference 0%nat dx [a0] = Ok (1%nat, [a0; a1]))
    by reflexivity.
  assert (Hr1 : residual 0%nat 1%nat [a0; a1] = Ok (1, [a0; a1]))
    by reflexivity.
  assert (Hfd2 : finite_difference 1%nat dx [a0; a1] = Ok (2%nat, [a0; a1; a1]))
    by reflexivity.
  assert (Hr2 : residual 1%nat 2%nat [a0; a1; a1] = Ok (0, [a0; a1; a1]))
    by reflexivity.
  exists a1, a1,
    {| U := 1%nat; U_new := Some 2%nat; i := Some 1%nat; stdout := [1%nat] |}.
  repeat (split; [done|]). split; [|done].
  unfold solve, range.
  destruct (Z.to_nat max_iter) as [|[|n]] eqn:Hn; [lia|lia|].
  cbn [Nat.sub seq iterate U stdout].
  rewrite (bind_ok _ _ _ _ _ Hfd1), (bind_ok _ _ _ _ _ Hr1).
  cbn [less float64]. rewrite (f64_ltb_asym _ _ Hlt).
  cbn [iterate U stdout].
  rewrite (bind_ok _ _ _ _ _ Hfd2), (bind_ok _ _ _ _ _ Hr2).
  cbn [less float64]. rewrite Hpos. reflexivity.
Qed.

End Float64Contract.

(** ** The solver on exact rational fields *)

Section RationalContract.
Open Scope Q_scope.
Implicit Types (a b : ndarray Q) (h : heap Q).

Lemma Q_ge_le (x y : Q) : greater_equal x y = true -> y <= x.
Proof. apply Qle_bool_imp_le. Qed.

Lemma Q_le_total (x y : Q) :
  isnan x = false -> isnan y = false -> greater_equal x y = false -> x <= y.
Proof.
  intros _ _ Hge. apply Qlt_le_weak, Qnot_le_lt. intros Hle.
  apply Qle_bool_iff in Hle. cbn in Hge. congruence.
Qed.

Lemma Q_foldl_maximum_upper (xs : list Q) x y :
  y ∈ x :: xs -> y <= foldl maximum x xs.
Proof.
  apply (foldl_maximum_upper Qle Q_ge_le (fun x _ => Qle_refl x)
           Qle_trans Q_le_total). done.
Qed.








End RationalContract.

(** * Concrete runs *)

Section Float64Runs.
Open Scope float_scope.

(** C2 fails as stated: with tolerance 2.0 the 3 x 3 grid converges in its
    first sweep, and [U] is still the initial field, interior 0.0, while
    the field that sweep computed, interior 1.0, is the one in [U_new]. *)
Lemma converged_U_is_not_the_new_field :
  let a0 := initial_field 3 1 in
  exists a1,
    solve 0%nat 0.5 1 2 [a0] =
      Ok ({| U := 0%nat; U_new := Some 1%nat; i := Some 0%nat;
             stdout := [0%nat] |}, [a0; a1]) /\
    finite_difference 0%nat 0.5 [a0] = Ok (1%nat, [a0; a1]) /\
    entry a0 1 1 = Some 0 /\ entry a1 1 1 = Some 1 /\ a0 <> a1.
Proof.
  eexists. split; [reflexivity|]. split; [reflexivity|].
  split; [reflexivity|]. split; [reflexivity|]. discriminate.
Qed.




(** C1 on the 3 x 3 grid with boundary 1.0. *)
Lemma finite_difference_averages_old_neighbours_witness :
  let a0 := initial_field 3 1 in
  ([a0] !! 0%nat = Some a0 /\ is_rect a0 = true) /\
  exists N h' new,
    finite_difference 0%nat 0.5 [a0] = Ok (N, h') /\
    h' !! N = Some new /\
    forall i j,
      (1 <= i <= fst (shape a0) - 2)%nat ->
      (1 <= j <= snd (shape a0) - 2)%nat ->
      exists x1 x2 x3 x4,
        entry a0 (i + 1) j = Some x1 /\ entry a0 (i - 1) j = Some x2 /\
        entry a0 i (j + 1) = Some x3 /\ entry a0 i (j - 1) = Some x4 /\
        entry new i j =
          Some (true_divide (add (add (add x1 x2) x3) x4) (of_int 4)).
Proof.
  intros a0. split; [split; reflexivity|].
  apply (finite_difference_averages_old_neighbours [a0] 0%nat 0.5 a0);
    reflexivity.
Defined.

(** C10 on the 3 x 3 grid with boundary 1.0. *)
Lemma finite_difference_leaves_input_witness :
  let a0 := initial_field 3 1 in
  ([a0] !! 0%nat = Some a0 /\ is_rect a0 = true) /\
  exists N h',
    finite_difference 0%nat 0.5 [a0] = Ok (N, h') /\
    h' !! 0%nat = Some a0 /\
    [a0] !! N = None /\ is_Some (h' !! N) /\
    forall l b, [a0] !! l = Some b -> h' !! l = Some b.
Proof.
  intros a0. split; [split; reflexivity|].
  apply (finite_difference_leaves_input [a0] 0%nat 0.5 a0); reflexivity.
Defined.

(** C3 on the 3 x 3 grid with boundary 1.0. *)
Lemma boundary_is_never_written_witness :
  let a0 := initial_field 3 1 in
  ([a0] !! 0%nat = Some a0 /\ is_rect a0 = true) /\
  (forall n, exists N h' a',
      sweeps n 0%nat 0.5 [a0] = Ok (N, h') /\ h' !! N = Some a' /\
      shape a' = shape a0 /\
      forall i j, on_boundary (shape a0) i j -> entry a' i j = entry a0 i j) /\
  (nonempty a0 = true ->
   forall max_iter tol, exists e' h' a',
      solve 0%nat 0.5 max_iter tol [a0] = Ok (e', h') /\
      h' !! U e' = Some a' /\ shape a' = shape a0 /\
      forall i j, on_boundary (shape a0) i j -> entry a' i j = entry a0 i j).
Proof.
  intros a0. split; [split; reflexivity|].
  apply (boundary_is_never_written [a0] 0%nat 0.5 a0); reflexivity.
Defined.

(** C2 on the 3 x 3 grid, one iteration with tolerance 2.0. *)
Lemma converged_leaves_new_field_in_U_new_witness :
  let a0 := initial_field 3 1 in
  ([a0] !! 0%nat = Some a0 /\ is_rect a0 = true /\ nonempty a0 = true) /\
  exists e' h',
    solve 0%nat 0.5 1 2 [a0] = Ok (e', h') /\
    (converged e' = true ->
     exists h0 N old new r,
       h0 !! U e' = Some old /\
       finite_difference (U e') 0.5 h0 = Ok (N, h') /\
       U_new e' = Some N /\ N <> U e' /\
       h' !! U e' = Some old /\ h' !! N = Some new /\
       residual (U e') N h' = Ok (r, h') /\ less r 2 = true).
Proof.
  intros a0. split; [repeat split; reflexivity|].
  apply (converged_leaves_new_field_in_U_new [a0] 0%nat 0.5 1 2 a0);
    reflexivity.
Defined.


(** C6 on the first iteration over the 3 x 3 grid, tolerance 1.0. *)
Lemma residual_is_max_norm_and_test_is_strict_witness :
  let a0 := initial_field 3 1 in
  let e := {| U := 0%nat; U_new := None; i := None; stdout := [] |} in
  ([a0] !! U e = Some a0 /\ is_rect a0 = true /\ nonempty a0 = true) /\
  exists N h' new r,
    finite_difference (U e) 0.5 [a0] = Ok (N, h') /\
    h' !! N = Some new /\
    residual (U e) N h' = Ok (r, h') /\
    (exists i j x y,
        entry new i j = Some x /\ entry a0 i j = Some y /\
        r = abs (x - y)) /\
    (forall i j, i < fst (shape a0) -> j < snd (shape a0) ->
      exists x y,
        entry new i j = Some x /\ entry a0 i j = Some y /\
        (is_nan r = false -> (abs (x - y) <=? r) = true)) /\
    ((r <? 1) = true ->
      iterate [0%nat] 0.5 1 e [a0] =
      Ok ({| U := U e; U_new := Some N; i := Some 0%nat;
             stdout := stdout e ++ [0%nat] |}, h')) /\
    ((r <? 1) = false ->
      iterate [0%nat] 0.5 1 e [a0] =
      iterate [] 0.5 1
        {| U := N; U_new := Some N; i := Some 0%nat; stdout := stdout e |}
        h') /\
    ((r =? 1) = true -> (r <? 1) = false).
Proof.
  intros a0 e. split; [repeat split; reflexivity|].
  apply (residual_is_max_norm_and_test_is_strict [a0] e 0.5 1 0%nat [] a0);
    reflexivity.
Defined.

(** C8 on the 3 x 3 grid with tolerance 0.5. *)
Lemma one_iteration_without_convergence_witness :
  let a0 := initial_field 3 1 in
  ([a0] !! 0%nat = Some a0 /\ is_rect a0 = true /\ nonempty a0 = true) /\
  exists N h1 r,
    finite_difference 0%nat 0.5 [a0] = Ok (N, h1) /\
    residual 0%nat N h1 = Ok (r, h1) /\
    ((0.5 <? r) = true ->
     exists e',
       solve 0%nat 0.5 1 0.5 [a0] = Ok (e', h1) /\
       converged e' = false /\ iterations_used e' = 1%nat /\ U e' = N).
Proof.
  intros a0. split; [repeat split; reflexivity|].
  apply (one_iteration_without_convergence [a0] 0%nat 0.5 0.5 a0);
    reflexivity.
Defined.


(** C7 with the tolerance 0.5 and the notebook's [max_iter]. *)
Lemma minimal_grid_converges_at_second_sweep_witness :
  ((0 <? 0.5) = true /\ (0.5 <? 1) = true /\ (2 <= 3000)%Z) /\
  let a0 := initial_field 3 1 in
  exists a1 a2 e',
    finite_difference 0%nat 0.5 [a0] = Ok (1%nat, [a0; a1]) /\
    entry a1 1 1 = Some 1 /\
    residual 0%nat 1%nat [a0; a1] = Ok (1, [a0; a1]) /\
    finite_difference 1%nat 0.5 [a0; a1] = Ok (2%nat, [a0; a1; a2]) /\
    residual 1%nat 2%nat [a0; a1; a2] = Ok (0, [a0; a1; a2]) /\
    solve 0%nat 0.5 3000 0.5 [a0] = Ok (e', [a0; a1; a2]) /\
    converged e' = true /\ iterations_used e' = 2%nat /\
    stdout e' = [1%nat].
Proof.
  split; [repeat split; lia|].
  apply (minimal_grid_converges_at_second_sweep 0.5 0.5 3000);
    [reflexivity|reflexivity|lia].
Defined.

End Float64Runs.

Section RationalRuns.
Open Scope Q_scope.


End RationalRuns.

(** * Further properties of the notebook's code *)

Section SetupFacts.
Context {T : Type} `{Dtype T}.
Implicit Types (a b : ndarray T) (h : heap T).

Lemma norm_index_first n : 1 <= n -> norm_index n 0 = Some 0.
Proof.
  intros Hn. unfold norm_index.
  destruct (Z.ltb_spec 0 (Z.of_nat n)); [done|lia].
Qed.

Lemma norm_index_last n : 1 <= n -> norm_index n (-1) = Some (n - 1).
Proof.
  intros Hn. unfold norm_index. simpl.
  destruct (Z.leb_spec (- Z.of_nat n) (-1)); [|lia].
  simpl. f_equal. lia.
Qed.

Lemma norm_index_empty k : norm_index 0 k = None.
Proof.
  unfold norm_index. change (Z.of_nat 0) with 0%Z. change (- 0)%Z with 0%Z.
  destruct (Z.leb_spec 0 k), (Z.ltb_spec k 0); simpl; try done; lia.
Qed.

Lemma setitem_row_last h a k v i :
  norm_index (fst (shape a)) k = Some i ->
  setitem_row (length h) k v (h ++ [a]) =
  Ok (tt, h ++ [Build_ndarray (shape a)
                  (alter (fmap (fun _ => v)) i (rows a))]).
Proof.
  intros Hk. unfold setitem_row.
  rewrite (bind_ok _ _ _ _ _
             (load_ok _ _ _ (list_lookup_middle h [] a _ eq_refl))).
  rewrite Hk. do 2 f_equal.
  replace (length h) with (length h + 0) at 1 by lia.
  by rewrite insert_app_r.
Qed.

Lemma setitem_col_last h a k v j :
  norm_index (snd (shape a)) k = Some j ->
  setitem_col (length h) k v (h ++ [a]) =
  Ok (tt, h ++ [Build_ndarray (shape a)
                  (fmap (fun row => <[j := v]> row) (rows a))]).
Proof.
  intros Hk. unfold setitem_col.
  rewrite (bind_ok _ _ _ _ _
             (load_ok _ _ _ (list_lookup_middle h [] a _ eq_refl))).
  rewrite Hk. do 2 f_equal.
  replace (length h) with (length h + 0) at 1 by lia.
  by rewrite insert_app_r.
Qed.

(** Entry by entry, the field of the claims' [initial_field]. *)
Lemma entry_initial_field N (value : T) i j :
  entry (initial_field N value) i j =
  if decide (i < N /\ j < N) then
    Some (if (i =? 0) || (i =? N - 1) || (j =? 0) || (j =? N - 1)
          then value else of_int 0)
  else None.
Proof.
  unfold entry, initial_field. cbn [rows].
  change (map ?f ?l) with (f <$> l). rewrite list_lookup_fmap.
  destruct (decide (i < N)) as [Hi|Hi].
  - rewrite lookup_seq_lt by done. simpl.
    change (map ?f ?l) with (f <$> l). rewrite list_lookup_fmap.
    destruct (decide (j < N)) as [Hj|Hj].
    + rewrite lookup_seq_lt by done. by rewrite decide_True.
    + rewrite lookup_seq_ge by lia. rewrite decide_False; [done|lia].
  - rewrite lookup_seq_ge by lia. rewrite decide_False; [done|lia].
Qed.

Lemma is_rect_initial_field N (value : T) :
  is_rect (initial_field N value) = true.
Proof.
  apply is_rect_spec. unfold initial_field. cbn [rows shape fst snd].
  split; [by rewrite length_map, length_seq|].
  apply Forall_forall. intros row Hrow.
  apply list_elem_of_fmap in Hrow as (i & -> & _).
  by rewrite length_map, length_seq.
Qed.

(** Two rectangular arrays of one shape with the same entries are equal. *)
Lemma ndarray_ext a b :
  is_rect a = true -> is_rect b = true -> shape a = shape b ->
  (forall i j, entry a i j = entry b i j) -> a = b.
Proof.
  intros [Hla Hra]%is_rect_spec [Hlb Hrb]%is_rect_spec Hs Hall.
  destruct a as [sa ra], b as [sb rb]. simpl in *. subst sb. f_equal.
  rewrite Forall_lookup in Hra, Hrb.
  apply list_eq. intros i. unfold entry in Hall. simpl in Hall.
  destruct (ra !! i) as [rowa|] eqn:Ea, (rb !! i) as [rowb|] eqn:Eb.
  - f_equal. apply list_eq. intros j. specialize (Hall i j).
    by rewrite Ea, Eb in Hall.
  - apply lookup_lt_Some in Ea. apply lookup_ge_None in Eb. lia.
  - apply lookup_ge_None in Ea. apply lookup_lt_Some in Eb. lia.
  - done.
Qed.

Lemma is_rect_zeros Nx Ny (z : T) :
  is_rect (Build_ndarray (Nx, Ny) (replicate Nx (replicate Ny z))) = true.
Proof.
  apply is_rect_spec. cbn [rows shape fst snd].
  split; [apply length_replicate|].
  apply Forall_replicate, length_replicate.
Qed.

Lemma is_rect_fill_row a i (v : T) :
  is_rect a = true ->
  is_rect (Build_ndarray (shape a)
             (alter (fmap (fun _ => v)) i (rows a))) = true.
Proof.
  rewrite !is_rect_spec. cbn [rows shape]. intros [Hl Hr].
  split; [by rewrite length_alter|].
  apply Forall_alter; [done|]. intros row Hrow.
  rewrite Forall_lookup in Hr. rewrite length_fmap. eauto.
Qed.

Lemma is_rect_fill_col a j (v : T) :
  is_rect a = true ->
  is_rect (Build_ndarray (shape a)
             (fmap (fun row => <[j := v]> row) (rows a))) = true.
Proof.
  rewrite !is_rect_spec. cbn [rows shape]. intros [Hl Hr].
  split; [by rewrite length_fmap|].
  apply Forall_fmap. eapply Forall_impl; [exact Hr|].
  intros row Hrow. simpl. by rewrite length_insert.
Qed.

Lemma entry_zeros Nx Ny (z : T) i j :
  entry (Build_ndarray (Nx, Ny) (replicate Nx (replicate Ny z))) i j =
  if decide (i < Nx /\ j < Ny) then Some z else None.
Proof.
  unfold entry. cbn [rows].
  destruct (decide (i < Nx)) as [Hi|Hi].
  - rewrite lookup_replicate_2 by done. simpl.
    destruct (decide (j < Ny)) as [Hj|Hj].
    + rewrite lookup_replicate_2 by done. by rewrite decide_True.
    + rewrite (proj1 (lookup_replicate_None _ _ _)) by lia.
      rewrite decide_False; [done|lia].
  - rewrite (proj1 (lookup_replicate_None _ _ _)) by lia.
    rewrite decide_False; [done|lia].
Qed.

Lemma entry_fill_row a i (v : T) i' j' :
  entry (Build_ndarray (shape a)
           (alter (fmap (fun _ => v)) i (rows a))) i' j' =
  if decide (i' = i) then (fun _ => v) <$> entry a i' j' else entry a i' j'.
Proof.
  unfold entry. cbn [rows]. destruct (decide (i' = i)) as [->|Hne].
  - rewrite list_lookup_alter_eq. destruct (rows a !! i) as [row|]; [|done].
    simpl. by rewrite list_lookup_fmap.
  - by rewrite list_lookup_alter_ne.
Qed.

Lemma entry_fill_col a j (v : T) i' j' :
  entry (Build_ndarray (shape a)
           (fmap (fun row => <[j := v]> row) (rows a))) i' j' =
  if decide (j' = j) then (fun _ => v) <$> entry a i' j' else entry a i' j'.
Proof.
  unfold entry. cbn [rows]. rewrite list_lookup_fmap.
  destruct (rows a !! i') as [row|]; simpl; [|by case_decide].
  destruct (decide (j' = j)) as [->|Hne].
  - destruct (row !! j) as [x|] eqn:Hj; simpl.
    + apply list_lookup_insert_eq. by eapply lookup_lt_Some.
    + apply lookup_ge_None. rewrite length_insert. by apply lookup_ge_None.
  - by rewrite list_lookup_insert_ne.
Qed.

Lemma initialize_run N (value : T) h :
  1 <= N ->
  initialize N value h = Ok (length h, h ++ [initial_field N value]).
Proof.
  intros HN. unfold initialize, np_zeros.
  unfold bind at 1.
  erewrite bind_ok;
    [|apply setitem_row_last; cbn [shape fst]; by apply norm_index_first].
  erewrite bind_ok;
    [|apply setitem_row_last; cbn [shape fst]; by apply norm_index_last].
  erewrite bind_ok;
    [|apply setitem_col_last; cbn [shape snd]; by apply norm_index_first].
  erewrite bind_ok;
    [|apply setitem_col_last; cbn [shape snd]; by apply norm_index_last].
  unfold ret. do 4 f_equal.
  apply ndarray_ext.
  - do 2 apply is_rect_fill_col. do 2 apply is_rect_fill_row.
    apply is_rect_zeros.
  - apply is_rect_initial_field.
  - done.
  - intros i j. rewrite entry_initial_field.
    rewrite !entry_fill_col, !entry_fill_row, entry_zeros.
    destruct (decide (i < N /\ j < N)) as [[Hi Hj]|Hn];
      repeat case_decide; simpl; try done; f_equal;
      destruct (Nat.eqb_spec i 0), (Nat.eqb_spec i (N - 1)),
        (Nat.eqb_spec j 0), (Nat.eqb_spec j (N - 1)); simpl; try done; lia.
Qed.

End SetupFacts.

Section SetupContract.
Context {T : Type} `{Dtype T}.
Implicit Types (a b : ndarray T) (h : heap T).

(** X1: the statements of the setup cell that build the field.  For
    [N >= 1] they allocate one new [N] by [N] array, touching no other, whose
    boundary entries are [value] and whose interior entries are zero: the
    field the claims start from.  For [N = 0] the first slice assignment,
    [U[0, :] = value], raises [IndexError]. *)
Theorem setup_builds_the_initial_field N (value : T) h :
  (1 <= N ->
   exists U0 h' a,
     initialize N value h = Ok (U0, h') /\
     h !! U0 = None /\ h' !! U0 = Some a /\
     (forall l b, h !! l = Some b -> h' !! l = Some b) /\
     a = initial_field N value /\
     shape a = (N, N) /\ is_rect a = true /\
     (forall i j, on_boundary (N, N) i j -> entry a i j = Some value) /\
     (forall i j, interior (N, N) i j -> entry a i j = Some (of_int 0))) /\
  (N = 0 -> initialize N value h = Raise IndexError).
Proof.
  split.
  - intros HN. exists (length h), (h ++ [initial_field N value]),
      (initial_field N value).
    split; [by apply initialize_run|].
    split; [by apply lookup_ge_None|].
    split; [by apply list_lookup_middle|].
    split; [intros l b Hl; by apply lookup_app_l_Some|].
    split; [done|]. split; [done|].
    split; [apply is_rect_initial_field|]. split.
    + intros i j (Hi & Hj & Hb). cbn [fst snd] in *.
      rewrite entry_initial_field, decide_True by done. f_equal.
      destruct (Nat.eqb_spec i 0), (Nat.eqb_spec i (N - 1)),
        (Nat.eqb_spec j 0), (Nat.eqb_spec j (N - 1)); simpl; try done; lia.
    + intros i j (Hi1 & Hi2 & Hj1 & Hj2). cbn [fst snd] in *.
      rewrite entry_initial_field, decide_True by lia. f_equal.
      destruct (Nat.eqb_spec i 0), (Nat.eqb_spec i (N - 1)),
        (Nat.eqb_spec j 0), (Nat.eqb_spec j (N - 1)); simpl; try done; lia.
  - intros ->. unfold initialize, np_zeros. unfold bind at 1.
    apply bind_raise. unfold setitem_row.
    rewrite (bind_ok _ _ _ _ _
               (load_ok _ _ _ (list_lookup_middle h [] _ _ eq_refl))).
    cbn [shape fst]. by rewrite norm_index_empty.
Qed.

End SetupContract.

Section SweepContract.
Context {T : Type} `{Dtype T}.
Implicit Types (a b : ndarray T) (h : heap T).

(** X2: a sweep keeps the shape: on a rectangular field
    [finite_difference] allocates exactly one array, and the field it
    returns is rectangular with the shape of its argument. *)
Theorem finite_difference_keeps_shape h (U0 : loc) dx a :
  h !! U0 = Some a -> is_rect a = true ->
  exists N h' new,
    finite_difference U0 dx h = Ok (N, h') /\ h' !! N = Some new /\
    length h' = S (length h) /\
    shape new = shape a /\ is_rect new = true.
Proof.
  intros HU Ha. exists (length h), (h ++ [jacobi a]), (jacobi a).
  split; [by apply finite_difference_run|].
  split; [by apply list_lookup_middle|].
  split; [rewrite length_app; simpl; lia|].
  destruct (jacobi_inv a Ha). done.
Qed.

Lemma corner_not_interior sh i j : is_corner sh i j -> ~ interior sh i j.
Proof. unfold is_corner, interior. lia. Qed.

Lemma jacobi_agree a b :
  is_rect a = true -> is_rect b = true ->
  agree_off_corners a b -> agree_off_corners (jacobi a) (jacobi b).
Proof.
  intros Ha Hb [Hs Hall].
  destruct (jacobi_inv a Ha) as [_ Hsa], (jacobi_inv b Hb) as [_ Hsb].
  split; [congruence|]. intros i j Hc. rewrite Hsa in Hc.
  rewrite !entry_jacobi by done. rewrite <- Hs.
  destruct (decide (interior (shape a) i j)) as [Hint|_]; [|by apply Hall].
  unfold stencil, is_corner in *. destruct Hint as (? & ? & ? & ?).
  rewrite <- !Hall by lia. done.
Qed.

Lemma jacobi_n_agree n a b :
  is_rect a = true -> is_rect b = true ->
  agree_off_corners a b -> agree_off_corners (jacobi_n n a) (jacobi_n n b).
Proof.
  intros Ha Hb Hab. induction n as [|n IH]; [done|].
  change (jacobi_n (S n) ?x) with (jacobi (jacobi_n n x)).
  apply jacobi_agree; [by apply jacobi_n_inv..|done].
Qed.

(** X3: the four corner entries never influence any other entry.  Two
    fields that agree everywhere except at the corners still agree
    everywhere except at the corners after any number of sweeps, and the
    corners themselves keep their values. *)
Theorem corners_never_influence_the_field
    h1 h2 (U1 U2 : loc) dx a1 a2 (n : nat) :
  h1 !! U1 = Some a1 -> h2 !! U2 = Some a2 ->
  is_rect a1 = true -> is_rect a2 = true ->
  agree_off_corners a1 a2 ->
  exists N1 h1' b1 N2 h2' b2,
    sweeps n U1 dx h1 = Ok (N1, h1') /\ h1' !! N1 = Some b1 /\
    sweeps n U2 dx h2 = Ok (N2, h2') /\ h2' !! N2 = Some b2 /\
    agree_off_corners b1 b2 /\
    forall i j, is_corner (shape a1) i j ->
      entry b1 i j = entry a1 i j /\ entry b2 i j = entry a2 i j.
Proof.
  intros HU1 HU2 Ha1 Ha2 Hab.
  destruct (sweeps_run n dx h1 U1 a1 HU1 Ha1) as (N1 & hs1 & Hr1 & HN1 & _).
  destruct (sweeps_run n dx h2 U2 a2 HU2 Ha2) as (N2 & hs2 & Hr2 & HN2 & _).
  exists N1, (h1 ++ hs1), (jacobi_n n a1), N2, (h2 ++ hs2), (jacobi_n n a2).
  repeat (split; [done|]). split; [by apply jacobi_n_agree|].
  intros i j Hc. split.
  - apply entry_jacobi_n_frame; [done|]. by apply corner_not_interior.
  - apply entry_jacobi_n_frame; [done|]. apply corner_not_interior.
    destruct Hab as [<- _]. done.
Qed.

(** X4: the fixed points of the sweep are the discretely harmonic fields:
    [finite_difference] returns a field equal to its argument exactly when
    every interior entry of the argument already is the mean of its four
    neighbours as the update rule computes it. *)
Theorem sweep_fixed_point_iff_harmonic h (U0 : loc) dx a :
  h !! U0 = Some a -> is_rect a = true ->
  exists N h' new,
    finite_difference U0 dx h = Ok (N, h') /\ h' !! N = Some new /\
    (new = a <->
     forall i j, interior (shape a) i j -> stencil a i j = entry a i j).
Proof.
  intros HU Ha. exists (length h), (h ++ [jacobi a]), (jacobi a).
  split; [by apply finite_difference_run|].
  split; [by apply list_lookup_middle|].
  destruct (jacobi_inv a Ha) as [Hr Hs]. split.
  - intros Heq i j Hint.
    pose proof (entry_jacobi a i j Ha) as He.
    rewrite decide_True in He by done. by rewrite Heq in He.
  - intros Hharm. apply ndarray_ext; [done..|].
    intros i j. rewrite entry_jacobi by done.
    case_decide; [by apply Hharm|done].
Qed.

End SweepContract.

Section LoopContract.
Context {T : Type} `{Dtype T}.
Implicit Types (a b : ndarray T) (h : heap T) (e : env).

(** The arrays a run of the loop appends to the store are the successive
    sweeps of the field it started on. *)
Lemma iterate_store its dx tol : forall e h a e' h',
  h !! U e = Some a -> is_rect a = true -> nonempty a = true ->
  iterate its dx tol e h = Ok (e', h') ->
  exists n, h' = h ++ ((fun m => jacobi_n (S m) a) <$> seq 0 n).
Proof.
  induction its as [|it its IH]; intros e h a e' h' HU Ha Hne Hrun.
  - injection Hrun as <- <-. exists 0. by rewrite app_nil_r.
  - cbn [iterate] in Hrun.
    rewrite (bind_ok _ _ _ _ _ (finite_difference_run h (U e) dx a HU Ha))
      in Hrun.
    destruct (jacobi_inv a Ha) as [Ha1 Hs1].
    destruct (max_abs_diff_ok a (jacobi a) Ha Ha1 Hs1 Hne) as [r Hr].
    erewrite bind_ok in Hrun; last first.
    { rewrite (residual_run _ _ _ a (jacobi a)), Hr; [done| |].
      - by apply lookup_app_l_Some.
      - by apply list_lookup_middle. }
    destruct (less r tol).
    + injection Hrun as <- <-. by exists 1.
    + apply (IH _ _ (jacobi a)) in Hrun as [n ->].
      * exists (S n). rewrite <- app_assoc. f_equal. simpl. f_equal.
        rewrite <- fmap_S_seq, <- list_fmap_compose.
        apply list_fmap_ext. intros _ m _. simpl.
        by rewrite (jacobi_n_succ_r (S m)).
      * by apply list_lookup_middle.
      * done.
      * by eapply nonempty_shape.
Qed.

(** X5: the loop only allocates.  Run on a rectangular field with at least
    one entry it returns normally; every array that was in the store, the
    initial field included, is unchanged; it appends exactly one array per
    sweep performed, at most [max_iter] of them, each rectangular and of
    the shape of the initial field. *)
Theorem solve_only_allocates h (U0 : loc) dx max_iter tol a :
  h !! U0 = Some a -> is_rect a = true -> nonempty a = true ->
  exists e' hs,
    solve U0 dx max_iter tol h = Ok (e', h ++ hs) /\
    (forall l b, h !! l = Some b -> (h ++ hs) !! l = Some b) /\
    length hs = iterations_used e' /\
    iterations_used e' <= Z.to_nat max_iter /\
    Forall (fun b => shape b = shape a /\ is_rect b = true) hs.
Proof.
  intros HU Ha Hne.
  destruct (solve_spec U0 dx max_iter tol h a HU Ha Hne)
    as (k & e' & hs & Hrun & Hk & _ & _ & _ & Hlen & Hend).
  exists e', hs. split; [done|].
  split; [intros l b Hl; by apply lookup_app_l_Some|].
  split; [done|]. split.
  { destruct Hend as [(r & Hlt & _ & _ & _ & Hi & _)|(-> & _ & -> & _)].
    - unfold iterations_used. rewrite Hi. lia.
    - done. }
  unfold solve in Hrun.
  eapply iterate_store in Hrun as [n Hn]; [|done..].
  apply app_inv_head in Hn as ->.
  apply Forall_fmap, Forall_forall. intros m _. simpl.
  destruct (jacobi_n_inv (S m) a Ha). done.
Qed.

(** X6: which array objects [U] and [U_new] are after the loop.  If the
    loop ran out of iterations, having entered at least one, they are one
    and the same array; if it left through [break] they are two different
    arrays; if the body never ran, [U_new] was never assigned. *)
Theorem aliasing_after_the_loop h (U0 : loc) dx max_iter tol a :
  h !! U0 = Some a -> is_rect a = true -> nonempty a = true ->
  exists e' h',
    solve U0 dx max_iter tol h = Ok (e', h') /\
    (converged e' = false -> (1 <= max_iter)%Z ->
     U_new e' = Some (U e')) /\
    (converged e' = true ->
     exists N, U_new e' = Some N /\ N <> U e' /\ is_Some (h' !! N)) /\
    ((max_iter <= 0)%Z -> U_new e' = None /\ U e' = U0).
Proof.
  intros HU Ha Hne.
  destruct (solve_spec U0 dx max_iter tol h a HU Ha Hne)
    as (k & e' & hs & Hrun & Hk & _ & _ & HUlt & _ & Hend).
  exists e', (h ++ hs). split; [done|].
  destruct Hend as [(r & Hlt & _ & _ & Hout & _ & HN & HNv)
                   |(-> & Hout & _ & Halias)].
  - split; [|split].
    + unfold converged. by rewrite Hout.
    + intros _. exists (length h + k). split; [done|]. split; [lia|eauto].
    + lia.
  - split; [|split].
    + intros _ Hmax. apply Halias. lia.
    + unfold converged. by rewrite Hout.
    + intros Hmax. unfold solve in Hrun.
      replace (Z.to_nat max_iter) with 0 in Hrun by lia.
      by injection Hrun as <- _.
Qed.

(** X7: the loop stops at the first sweep whose residual is below the
    tolerance.  It prints at most one message; the index [k] it prints is
    that of a sweep with residual below [tol], every sweep before it had a
    residual not below [tol], and [k + 1] sweeps were performed.  Without a
    message all [max_iter] sweeps had a residual not below [tol]. *)
Theorem loop_stops_at_first_small_residual h (U0 : loc) dx max_iter tol a :
  h !! U0 = Some a -> is_rect a = true -> nonempty a = true ->
  exists e' h' k,
    solve U0 dx max_iter tol h = Ok (e', h') /\
    (stdout e' = [k] /\ i e' = Some k /\ k < Z.to_nat max_iter /\
     iterations_used e' = S k /\
     (exists Uk hk N hk' r,
        sweeps k U0 dx h = Ok (Uk, hk) /\
        finite_difference Uk dx hk = Ok (N, hk') /\
        residual Uk N hk' = Ok (r, hk') /\ less r tol = true)
     \/ stdout e' = [] /\ k = Z.to_nat max_iter /\ iterations_used e' = k) /\
    forall m, m < k ->
      exists Um hm N hm' r,
        sweeps m U0 dx h = Ok (Um, hm) /\
        finite_difference Um dx hm = Ok (N, hm') /\
        residual Um N hm' = Ok (r, hm') /\ less r tol = false.
Proof.
  intros HU Ha Hne.
  destruct (solve_spec U0 dx max_iter tol h a HU Ha Hne)
    as (k & e' & hs & Hrun & Hk & Hres & _ & _ & _ & Hend).
  assert (Hstep : forall m r,
    max_abs_diff (jacobi_n m a) (jacobi_n (S m) a) = Ok r ->
    exists Um hm N hm',
      sweeps m U0 dx h = Ok (Um, hm) /\
      finite_difference Um dx hm = Ok (N, hm') /\
      residual Um N hm' = Ok (r, hm')).
  { intros m r Hr.
    destruct (sweeps_run m dx h U0 a HU Ha) as (Um & hsm & Hsw & HUm & _).
    destruct (jacobi_n_inv m a Ha) as [Hrm _].
    exists Um, (h ++ hsm), (length (h ++ hsm)),
      ((h ++ hsm) ++ [jacobi (jacobi_n m a)]).
    split; [done|]. split; [by apply finite_difference_run|].
    rewrite (residual_run _ _ _ (jacobi_n m a) (jacobi (jacobi_n m a))).
    - change (jacobi (jacobi_n m a)) with (jacobi_n (S m) a). by rewrite Hr.
    - by apply lookup_app_l_Some.
    - by apply list_lookup_middle. }
  exists e', (h ++ hs), k. split; [done|]. split.
  - destruct Hend as [(r & Hlt & Hr & Hltr & Hout & Hi & _)
                     |(-> & Hout & Hused & _)].
    + left. split; [done|]. split; [done|]. split; [done|].
      split; [unfold iterations_used; by rewrite Hi|].
      destruct (Hstep k r Hr) as (Uk & hk & N & hk' & ? & ? & ?).
      exists Uk, hk, N, hk', r. done.
    + right. done.
  - intros m Hm. destruct (Hres m Hm) as (r & Hr & Hltr).
    destruct (Hstep m r Hr) as (Um & hm & N & hm' & ? & ? & ?).
    exists Um, hm, N, hm', r. done.
Qed.

Lemma iterate_break_stable its its2 dx tol : forall e h e' h',
  iterate its dx tol e h = Ok (e', h') -> stdout e' <> stdout e ->
  iterate (its ++ its2) dx tol e h = Ok (e', h').
Proof.
  induction its as [|it its IH]; intros e h e' h' Hrun Hout.
  - injection Hrun as <- <-. done.
  - cbn [iterate app] in *.
    apply bind_inv in Hrun as (new & h1 & Hfd & Hrun).
    apply bind_inv in Hrun as (r & h2 & Hres & Hrun).
    rewrite (bind_ok _ _ _ _ _ Hfd), (bind_ok _ _ _ _ _ Hres).
    destruct (less r tol); [done|]. by apply IH.
Qed.

(** X8: raising [max_iter] does not change a converged run: if the loop
    converged within [max_iter] iterations, it ends in the same state, with
    the same store, for every larger [max_iter]. *)
Theorem converged_run_is_stable_in_max_iter
    h (U0 : loc) dx (max_iter max_iter' : Z) tol e' h' :
  solve U0 dx max_iter tol h = Ok (e', h') -> converged e' = true ->
  (max_iter <= max_iter')%Z ->
  solve U0 dx max_iter' tol h = Ok (e', h').
Proof.
  intros Hrun Hconv Hle. unfold solve, range in *.
  rewrite !Nat.sub_0_r in *.
  replace (Z.to_nat max_iter')
    with (Z.to_nat max_iter + (Z.to_nat max_iter' - Z.to_nat max_iter))
    by lia.
  rewrite seq_app. apply iterate_break_stable; [done|].
  simpl. unfold converged in Hconv. by destruct (stdout e').
Qed.






End LoopContract.

Section Float64Extras.
Open Scope float_scope.
Implicit Types (a b d : ndarray float) (h : heap float).

Lemma f64_is_finite_spec x :
  is_finite x = true ->
  exists s,
    Prim2SF x = S754_zero s \/ exists m e, Prim2SF x = S754_finite s m e.
Proof.
  unfold is_finite. rewrite negb_true_iff, orb_false_iff. intros [Hnan Hinf].
  apply f64_is_nan_false in Hnan. unfold is_infinity in Hinf.
  rewrite FloatAxioms.eqb_spec, FloatAxioms.abs_spec in Hinf.
  change (Prim2SF infinity) with (S754_infinity false) in Hinf.
  destruct (Prim2SF x) as [s|s| |s m e]; [eauto|done|done|eauto].
Qed.


(** A finite value minus itself is [+0.0]. *)
Lemma f64_sub_diag x : is_finite x = true -> x - x = 0.
Proof.
  intros [s [Hx|(m & e & Hx)]]%f64_is_finite_spec;
    apply Prim2SF_inj; rewrite FloatAxioms.sub_spec, Hx;
    change (Prim2SF 0) with (S754_zero false).
  - by destruct s.
  - unfold SF64sub, SFsub. by rewrite Z.sub_diag.
Qed.





Lemma jacobi_harmonic {T : Type} `{Dtype T} (a : ndarray T) :
  is_rect a = true ->
  (forall i j, interior (shape a) i j -> stencil a i j = entry a i j) ->
  jacobi a = a.
Proof.
  intros Ha Hharm. destruct (jacobi_inv a Ha) as [Hr Hs].
  apply ndarray_ext; [done..|].
  intros i j. rewrite entry_jacobi by done.
  case_decide; [by apply Hharm|done].
Qed.

(** X10: a finite field that is already discretely harmonic converges at
    once.  For any positive tolerance and [max_iter >= 1] the loop performs
    one sweep, which returns an equal field with residual [0.0], prints
    iteration 0 and leaves [U] on the initial field.  Fields without
    interior points (fewer than three rows or columns) are of this kind. *)
Theorem harmonic_field_converges_at_once h (U0 : loc) dx max_iter tol a :
  h !! U0 = Some a -> is_rect a = true -> nonempty a = true ->
  (forall i j, interior (shape a) i j -> stencil a i j = entry a i j) ->
  (forall i j v, entry a i j = Some v -> is_finite v = true) ->
  (0 <? tol) = true -> (1 <= max_iter)%Z ->
  residual U0 (length h) (h ++ [a]) = Ok (0, h ++ [a]) /\
  solve U0 dx max_iter tol h =
  Ok ({| U := U0; U_new := Some (length h); i := Some 0%nat;
         stdout := [0%nat] |}, h ++ [a]).
Proof.
  intros HU Ha Hne Hharm Hfin Htol Hmax.
  pose proof (finite_difference_run h U0 dx a HU Ha) as Hfd.
  rewrite (jacobi_harmonic a Ha Hharm) in Hfd.
  destruct (max_abs_diff_ok a a Ha Ha eq_refl Hne) as [r Hr].
  assert (Hr0 : r = 0).
  { destruct (max_abs_diff_elem _ _ _ Hr) as (i & j & x & y & Hx & Hy & ->).
    rewrite Hx in Hy. injection Hy as <-.
    cbn [absolute subtract float64].
    by rewrite (f64_sub_diag x (Hfin _ _ _ Hx)). }
  subst r.
  assert (Hres : residual U0 (length h) (h ++ [a]) = Ok (0, h ++ [a])).
  { rewrite (residual_run _ _ _ a a), Hr; [done| |].
    - by apply lookup_app_l_Some.
    - by apply list_lookup_middle. }
  split; [done|]. unfold solve, range.
  destruct (Z.to_nat max_iter) as [|n] eqn:En; [lia|].
  cbn [Nat.sub seq iterate U stdout].
  rewrite (bind_ok _ _ _ _ _ Hfd), (bind_ok _ _ _ _ _ Hres).
  cbn [less float64]. by rewrite Htol.
Qed.





End Float64Extras.

Section RationalExtras.
Open Scope Q_scope.
Implicit Types (a b : ndarray Q) (h : heap Q).

(** The rational residual bounds the absolute difference at every point. *)
Lemma Q_max_abs_diff_upper a b r i j x y :
  max_abs_diff a b = Ok r ->
  entry a i j = Some x -> entry b i j = Some y ->
  Qabs (x - y) <= r.
Proof.
  unfold max_abs_diff. destruct (np_subtract a b) as [d|] eqn:Hd; [|done].
  unfold np_max. destruct (concat _) as [|z zs] eqn:Hc; [done|].
  intros [= <-] Hx Hy. apply Q_foldl_maximum_upper.
  rewrite <- Hc. apply elem_of_concat_entry. exists i, j.
  rewrite entry_np_abs, (entry_np_subtract _ _ _ _ _ Hd), Hx, Hy. done.
Qed.

Lemma mean4_diff_bound r x1 x2 x3 x4 y1 y2 y3 y4 :
  Qabs (x1 - y1) <= r -> Qabs (x2 - y2) <= r ->
  Qabs (x3 - y3) <= r -> Qabs (x4 - y4) <= r ->
  Qabs (true_divide (add (add (add x1 x2) x3) x4) (of_int 4)
        - true_divide (add (add (add y1 y2) y3) y4) (of_int 4)) <= r.
Proof.
  rewrite !Qabs_Qle_condition. intros [? ?] [? ?] [? ?] [? ?].
  cbn [true_divide add of_int rational].
  unfold Qdiv. change (/ inject_Z 4) with (1 # 4). split; lra.
Qed.

(** X13, in exact arithmetic: the residual never grows.  On a field of
    rationals the residual of a sweep is at most the residual of the sweep
    before it. *)
Theorem residual_never_grows_in_exact_arithmetic h (U0 : loc) dx a :
  h !! U0 = Some a -> is_rect a = true -> nonempty a = true ->
  exists N1 h1 r1 N2 h2 r2,
    finite_difference U0 dx h = Ok (N1, h1) /\
    residual U0 N1 h1 = Ok (r1, h1) /\
    finite_difference N1 dx h1 = Ok (N2, h2) /\
    residual N1 N2 h2 = Ok (r2, h2) /\
    r2 <= r1.
Proof.
  intros HU Ha Hne.
  destruct (jacobi_inv a Ha) as [Ha1 Hs1].
  destruct (jacobi_inv (jacobi a) Ha1) as [Ha2 Hs2].
  destruct (max_abs_diff_ok a (jacobi a) Ha Ha1 Hs1 Hne) as [r1 Hr1].
  destruct (max_abs_diff_ok (jacobi a) (jacobi (jacobi a)) Ha1 Ha2 Hs2
              (nonempty_shape _ _ Hs1 Hne)) as [r2 Hr2].
  set (h1 := h ++ [jacobi a]). set (h2 := h1 ++ [jacobi (jacobi a)]).
  assert (HN1 : h1 !! length h = Some (jacobi a))
    by (by apply list_lookup_middle).
  exists (length h), h1, r1, (length h1), h2, r2.
  split; [by apply finite_difference_run|]. split.
  { rewrite (residual_run _ _ _ a (jacobi a)), Hr1; [done| |done].
    by apply lookup_app_l_Some. }
  split; [by apply finite_difference_run|]. split.
  { rewrite (residual_run _ _ _ (jacobi a) (jacobi (jacobi a))), Hr2; [done| |].
    - by apply lookup_app_l_Some.
    - by apply list_lookup_middle. }
  assert (Hpos : 0 <= r1).
  { destruct (max_abs_diff_elem _ _ _ Hr1) as (i & j & x & y & _ & _ & ->).
    apply Qabs_nonneg. }
  destruct (max_abs_diff_elem _ _ _ Hr2) as (i & j & x & y & Hx & Hy & ->).
  cbn [absolute subtract rational].
  rewrite entry_jacobi in Hy by done. rewrite Hs1 in Hy.
  rewrite entry_jacobi in Hx by done.
  destruct (decide (interior (shape a) i j)) as [Hint|Hint].
  - unfold stencil in Hx, Hy.
    assert (Hnb : forall i' j' u, entry a i' j' = Some u ->
              exists w, entry (jacobi a) i' j' = Some w /\ Qabs (u - w) <= r1).
    { intros i' j' u Hu.
      destruct (proj2 (entry_is_Some (jacobi a) i' j' Ha1)) as [w Hw].
      { rewrite Hs1. apply entry_is_Some; [done|eauto]. }
      exists w. split; [done|]. by eapply Q_max_abs_diff_upper. }
    destruct (entry a (i + 1) j) as [u1|] eqn:E1; [|done].
    destruct (entry a (i - 1) j) as [u2|] eqn:E2; [|done].
    destruct (entry a i (j + 1)) as [u3|] eqn:E3; [|done].
    destruct (entry a i (j - 1)) as [u4|] eqn:E4; [|done].
    destruct (Hnb _ _ _ E1) as (w1 & Hw1 & ?).
    destruct (Hnb _ _ _ E2) as (w2 & Hw2 & ?).
    destruct (Hnb _ _ _ E3) as (w3 & Hw3 & ?).
    destruct (Hnb _ _ _ E4) as (w4 & Hw4 & ?).
    rewrite Hw1, Hw2, Hw3, Hw4 in Hy. simpl in Hx, Hy.
    injection Hx as <-. injection Hy as <-.
    by apply mean4_diff_bound.
  - rewrite entry_jacobi, decide_False in Hy by done.
    rewrite Hx in Hy. injection Hy as <-.
    apply Qabs_Qle_condition. split; lra.
Qed.

End RationalExtras.

Section Float64ExtraRuns.
Open Scope float_scope.

(** X1 for the 3 x 3 grid with boundary 1.0 in an empty store. *)
Lemma setup_builds_the_initial_field_witness :
  (1 <= 3)%nat /\
  exists U0 h' a,
    initialize 3 1 [] = Ok (U0, h') /\
    ([] : heap float) !! U0 = None /\ h' !! U0 = Some a /\
    (forall l b, ([] : heap float) !! l = Some b -> h' !! l = Some b) /\
    a = initial_field 3 1 /\
    shape a = (3, 3)%nat /\ is_rect a = true /\
    (forall i j, on_boundary (3, 3)%nat i j -> entry a i j = Some 1) /\
    (forall i j, interior (3, 3)%nat i j -> entry a i j = Some (of_int 0)).
Proof.
  split; [lia|].
  apply (proj1 (setup_builds_the_initial_field 3 1 [])). lia.
Defined.

(** X2 on the 3 x 3 grid. *)
Lemma finite_difference_keeps_shape_witness :
  let a0 := initial_field 3 1 in
  ([a0] !! 0%nat = Some a0 /\ is_rect a0 = true) /\
  exists N h' new,
    finite_difference 0%nat 0.5 [a0] = Ok (N, h') /\ h' !! N = Some new /\
    length h' = S (length [a0]) /\
    shape new = shape a0 /\ is_rect new = true.
Proof.
  intros a0. split; [split; reflexivity|].
  apply (finite_difference_keeps_shape [a0] 0%nat 0.5 a0); reflexivity.
Defined.

(** X3 on two 3 x 3 grids that differ in one corner, two sweeps. *)
Lemma corners_never_influence_the_field_witness :
  let a1 := initial_field 3 1 in
  let a2 := Build_ndarray (3, 3)%nat [[5; 1; 1]; [1; 0; 1]; [1; 1; 1]] in
  ([a1] !! 0%nat = Some a1 /\ [a2] !! 0%nat = Some a2 /\
   is_rect a1 = true /\ is_rect a2 = true /\ agree_off_corners a1 a2) /\
  exists N1 h1' b1 N2 h2' b2,
    sweeps 2 0%nat 0.5 [a1] = Ok (N1, h1') /\ h1' !! N1 = Some b1 /\
    sweeps 2 0%nat 0.5 [a2] = Ok (N2, h2') /\ h2' !! N2 = Some b2 /\
    agree_off_corners b1 b2 /\
    forall i j, is_corner (shape a1) i j ->
      entry b1 i j = entry a1 i j /\ entry b2 i j = entry a2 i j.
Proof.
  intros a1 a2.
  assert (Hagree : agree_off_corners a1 a2).
  { split; [reflexivity|]. intros i j Hc.
    destruct i as [|[|[|i]]], j as [|[|[|j]]]; try reflexivity.
    exfalso. apply Hc. unfold is_corner. simpl. lia. }
  split; [repeat split; try reflexivity; apply Hagree|].
  apply (corners_never_influence_the_field [a1] [a2] 0%nat 0%nat 0.5 a1 a2 2);
    try reflexivity. exact Hagree.
Defined.

(** X4 on the 3 x 3 grid. *)
Lemma sweep_fixed_point_iff_harmonic_witness :
  let a0 := initial_field 3 1 in
  ([a0] !! 0%nat = Some a0 /\ is_rect a0 = true) /\
  exists N h' new,
    finite_difference 0%nat 0.5 [a0] = Ok (N, h') /\ h' !! N = Some new /\
    (new = a0 <->
     forall i j, interior (shape a0) i j -> stencil a0 i j = entry a0 i j).
Proof.
  intros a0. split; [split; reflexivity|].
  apply (sweep_fixed_point_iff_harmonic [a0] 0%nat 0.5 a0); reflexivity.
Defined.

(** X5 on the 3 x 3 grid with the notebook's [max_iter]. *)
Lemma solve_only_allocates_witness :
  let a0 := initial_field 3 1 in
  ([a0] !! 0%nat = Some a0 /\ is_rect a0 = true /\ nonempty a0 = true) /\
  exists e' hs,
    solve 0%nat 0.5 3000 0.5 [a0] = Ok (e', [a0] ++ hs) /\
    (forall l b, [a0] !! l = Some b -> ([a0] ++ hs) !! l = Some b) /\
    length hs = iterations_used e' /\
    (iterations_used e' <= Z.to_nat 3000)%nat /\
    Forall (fun b => shape b = shape a0 /\ is_rect b = true) hs.
Proof.
  intros a0. split; [repeat split; reflexivity|].
  apply (solve_only_allocates [a0] 0%nat 0.5 3000 0.5 a0); reflexivity.
Defined.

(** X6 on the 3 x 3 grid. *)
Lemma aliasing_after_the_loop_witness :
  let a0 := initial_field 3 1 in
  ([a0] !! 0%nat = Some a0 /\ is_rect a0 = true /\ nonempty a0 = true) /\
  exists e' h',
    solve 0%nat 0.5 1 0.5 [a0] = Ok (e', h') /\
    (converged e' = false -> (1 <= 1)%Z -> U_new e' = Some (U e')) /\
    (converged e' = true ->
     exists N, U_new e' = Some N /\ N <> U e' /\ is_Some (h' !! N)) /\
    ((1 <= 0)%Z -> U_new e' = None /\ U e' = 0%nat).
Proof.
  intros a0. split; [repeat split; reflexivity|].
  apply (aliasing_after_the_loop [a0] 0%nat 0.5 1 0.5 a0); reflexivity.
Defined.

(** X7 on the 3 x 3 grid. *)
Lemma loop_stops_at_first_small_residual_witness :
  let a0 := initial_field 3 1 in
  ([a0] !! 0%nat = Some a0 /\ is_rect a0 = true /\ nonempty a0 = true) /\
  exists e' h' k,
    solve 0%nat 0.5 3000 0.5 [a0] = Ok (e', h') /\
    (stdout e' = [k] /\ i e' = Some k /\ (k < Z.to_nat 3000)%nat /\
     iterations_used e' = S k /\
     (exists Uk hk N hk' r,
        sweeps k 0%nat 0.5 [a0] = Ok (Uk, hk) /\
        finite_difference Uk 0.5 hk = Ok (N, hk') /\
        residual Uk N hk' = Ok (r, hk') /\ less r 0.5 = true)
     \/ stdout e' = [] /\ k = Z.to_nat 3000 /\ iterations_used e' = k) /\
    forall m, (m < k)%nat ->
      exists Um hm N hm' r,
        sweeps m 0%nat 0.5 [a0] = Ok (Um, hm) /\
        finite_difference Um 0.5 hm = Ok (N, hm') /\
        residual Um N hm' = Ok (r, hm') /\ less r 0.5 = false.
Proof.
  intros a0. split; [repeat split; reflexivity|].
  apply (loop_stops_at_first_small_residual [a0] 0%nat 0.5 3000 0.5 a0);
    reflexivity.
Defined.

(** X8: the 3 x 3 run converges within 2 iterations, hence within 3000. *)
Lemma converged_run_is_stable_in_max_iter_witness :
  let a0 := initial_field 3 1 in
  let a1 := Build_ndarray (3, 3)%nat [[1; 1; 1]; [1; 1; 1]; [1; 1; 1]] in
  let e' := {| U := 1%nat; U_new := Some 2%nat; i := Some 1%nat;
               stdout := [1%nat] |} in
  (solve 0%nat 0.5 2 0.5 [a0] = Ok (e', [a0; a1; a1]) /\
   converged e' = true /\ (2 <= 3000)%Z) /\
  solve 0%nat 0.5 3000 0.5 [a0] = Ok (e', [a0; a1; a1]).
Proof.
  intros a0 a1 e'. split; [repeat split; try reflexivity; lia|].
  apply (converged_run_is_stable_in_max_iter [a0] 0%nat 0.5 2 3000 0.5 e'
           [a0; a1; a1]); [reflexivity|reflexivity|lia].
Defined.


(** X10 on the 3 x 3 grid of ones. *)
Lemma harmonic_field_converges_at_once_witness :
  let a := Build_ndarray (3, 3)%nat [[1; 1; 1]; [1; 1; 1]; [1; 1; 1]] in
  ([a] !! 0%nat = Some a /\ is_rect a = true /\ nonempty a = true /\
   (forall i j, interior (shape a) i j -> stencil a i j = entry a i j) /\
   (forall i j v, entry a i j = Some v -> is_finite v = true) /\
   (0 <? 0.5) = true /\ (1 <= 3000)%Z) /\
  residual 0%nat (length [a]) ([a] ++ [a]) = Ok (0, [a] ++ [a]) /\
  solve 0%nat 0.5 3000 0.5 [a] =
  Ok ({| U := 0%nat; U_new := Some (length [a]); i := Some 0%nat;
         stdout := [0%nat] |}, [a] ++ [a]).
Proof.
  intros a.
  assert (Hharm : forall i j, interior (shape a) i j ->
                              stencil a i j = entry a i j).
  { intros i j (? & ? & ? & ?). simpl in *.
    assert (i = 1%nat) as -> by lia. assert (j = 1%nat) as -> by lia.
    reflexivity. }
  assert (Hfin : forall i j v, entry a i j = Some v -> is_finite v = true).
  { intros i j v.
    destruct i as [|[|[|i]]], j as [|[|[|j]]]; simpl; intros Hv;
      try discriminate; injection Hv as <-; reflexivity. }
  split; [repeat split; try reflexivity; try assumption; lia|].
  apply (harmonic_field_converges_at_once [a] 0%nat 0.5 3000 0.5 a);
    try reflexivity; try assumption; lia.
Defined.



End Float64ExtraRuns.

Section RationalExtraRuns.
Open Scope Q_scope.

(** X13 on the 3 x 3 grid of rationals. *)
Lemma residual_never_grows_in_exact_arithmetic_witness :
  let a0 := initial_field 3 1 in
  ([a0] !! 0%nat = Some a0 /\ is_rect a0 = true /\ nonempty a0 = true) /\
  exists N1 h1 r1 N2 h2 r2,
    finite_difference 0%nat (1 # 2) [a0] = Ok (N1, h1) /\
    residual 0%nat N1 h1 = Ok (r1, h1) /\
    finite_difference N1 (1 # 2) h1 = Ok (N2, h2) /\
    residual N1 N2 h2 = Ok (r2, h2) /\
    r2 <= r1.
Proof.
  intros a0. split; [repeat split; reflexivity|].
  apply (residual_never_grows_in_exact_arithmetic [a0] 0%nat (1 # 2) a0);
    reflexivity.
Defined.

End RationalExtraRuns.
